(** * rsdiv: recommender base and Maximal Marginal Relevance reranker

    A shallow embedding of [rsdiv/diversity/mmr.py] and
    [rsdiv/recommenders/base.py].

    Conventions of the embedding:
    - array entries are extended rationals ([xfloat]): exact rational
      arithmetic on the finite values, with the IEEE special values
      (-inf, +inf, nan) the code writes or can meet;  rounding and overflow
      of machine floats are not modelled;
    - raw ids are integers, an interaction value is an int64 or a finite
      float64, and the dtype of a column follows from its values;
    - a Python exception is a [Raise] outcome of the [result] monad;
    - library calls (jax.numpy, numpy, pandas, scipy) are embedded by the
      behaviour their documentation fixes;  what a library leaves open
      (the order inside [argpartition], the seeded shuffle of
      [train_test_split], the scorer) is a section variable. *)

From Stdlib Require Import List ZArith QArith Lqa Lia Bool Arith.
From Stdlib Require Import Permutation Sorting.Sorted.
From Stdlib Require String.
Import ListNotations.

(* ================================================================== *)
(** * Outcomes: values and raised exceptions *)

Inductive exn : Type :=
| ValueError
| IndexError
| TypeError
| Other (name : String.string).

Inductive result (A : Type) : Type :=
| Ok (a : A)
| Raise (e : exn).

(** The exception the spec names for a user id out of range; no line of
    the source raises it. *)
Module SpecErrors.
Import String.
Definition InvalidUserError : exn := Other "InvalidUserError".
End SpecErrors.
Import SpecErrors.

Arguments Ok {A} a.
Arguments Raise {A} e.

Definition bind {A B : Type} (c : result A) (f : A -> result B) : result B :=
  match c with
  | Ok a => f a
  | Raise e => Raise e
  end.

Declare Scope result_scope.
Delimit Scope result_scope with result.
Notation "x <- c ;; k" := (bind c (fun x => k))
  (at level 61, c at next level, right associativity) : result_scope.
Notation "' pat <- c ;; k" := (bind c (fun x => match x with pat => k end))
  (at level 61, pat pattern, c at next level, right associativity) : result_scope.
Local Open Scope result_scope.

(* ================================================================== *)
(** * Array values *)

Module Arr.

(** An array entry: a finite rational or one of the IEEE special values. *)
Inductive xfloat : Type :=
| NaN
| NInf
| PInf
| Fin (q : Q).


(** [c * x] for a finite Python scalar [c]. *)
Definition smul (c : Q) (x : xfloat) : xfloat :=
  match x with
  | NaN => NaN
  | Fin q => Fin (c * q)
  | PInf => match c ?= 0 with Gt => PInf | Lt => NInf | Eq => NaN end
  | NInf => match c ?= 0 with Gt => NInf | Lt => PInf | Eq => NaN end
  end.

(** [x - y]. *)
Definition xsub (x y : xfloat) : xfloat :=
  match x, y with
  | NaN, _ | _, NaN => NaN
  | Fin a, Fin b => Fin (a - b)
  | PInf, PInf => NaN
  | NInf, NInf => NaN
  | PInf, _ => PInf
  | NInf, _ => NInf
  | Fin _, PInf => NInf
  | Fin _, NInf => PInf
  end.

(** [-x]. *)
Definition xneg (x : xfloat) : xfloat :=
  match x with
  | NaN => NaN
  | NInf => PInf
  | PInf => NInf
  | Fin q => Fin (- q)
  end.

(** IEEE [x < y]: false as soon as one side is nan. *)
Definition xltb (x y : xfloat) : bool :=
  match x, y with
  | NaN, _ | _, NaN => false
  | _, NInf => false
  | NInf, _ => true
  | PInf, _ => false
  | Fin _, PInf => true
  | Fin a, Fin b => match a ?= b with Lt => true | _ => false end
  end.

(** The running maximum of [jnp.max]: nan propagates. *)
Definition xmax (x y : xfloat) : xfloat :=
  match x, y with
  | NaN, _ | _, NaN => NaN
  | _, _ => if xltb x y then y else x
  end.

(** Does [x] displace the current best [best] in [argmax]?  A nan counts as
    the maximum, and the first one met is kept. *)
Definition displaces (x best : xfloat) : bool :=
  match best, x with
  | NaN, _ => false
  | _, NaN => true
  | _, _ => xltb best x
  end.

Fixpoint argmax_from (best_i : nat) (best : xfloat) (i : nat)
         (l : list xfloat) : nat :=
  match l with
  | [] => best_i
  | x :: t =>
      if displaces x best then argmax_from i x (S i) t
      else argmax_from best_i best (S i) t
  end.

(** [jnp.argmax(a)]: index of the first maximal entry; an empty array raises. *)
Definition argmax (a : list xfloat) : result nat :=
  match a with
  | [] => Raise ValueError
  | x :: t => Ok (argmax_from 0 x 1 t)
  end.

(** [a.at[j].set(v)] on one axis: an index out of bounds is dropped. *)
Fixpoint set_at {A : Type} (j : nat) (v : A) (l : list A) : list A :=
  match l, j with
  | [], _ => []
  | _ :: t, O => v :: t
  | x :: t, S j' => x :: set_at j' v t
  end.

(** A two-dimensional array, as the list of its rows. *)
Definition matrix : Type := list (list xfloat).

(** [m.at[:, j].set(v)] on a matrix with at least one column (an index
    out of bounds is dropped there; on an axis of size 0 JAX raises
    IndexError, a case the list of rows does not tell apart from a
    matrix without rows). *)
Definition set_column (j : nat) (v : xfloat) (m : matrix) : matrix :=
  map (set_at j v) m.

(** [jnp.max(row)]: a reduction over no element raises. *)
Definition max_row (row : list xfloat) : result xfloat :=
  match row with
  | [] => Raise ValueError
  | x :: t => Ok (fold_left xmax t x)
  end.

(** [jnp.max(m, axis=1)]. *)
Fixpoint max_axis1 (m : matrix) : result (list xfloat) :=
  match m with
  | [] => Ok []
  | row :: rest =>
      x <- max_row row ;;
      xs <- max_axis1 rest ;;
      Ok (x :: xs)
  end.

Fixpoint map2 {A B C : Type} (f : A -> B -> C) (a : list A) (b : list B)
  : list C :=
  match a, b with
  | x :: a', y :: b' => f x y :: map2 f a' b'
  | _, _ => []
  end.

(** An elementwise binary operation on one-dimensional arrays, with the
    broadcasting of a length-one operand. *)
Definition broadcast2 (f : xfloat -> xfloat -> xfloat) (a b : list xfloat)
  : result (list xfloat) :=
  if Nat.eqb (length a) (length b) then Ok (map2 f a b)
  else match a, b with
       | [x], _ => Ok (map (f x) b)
       | _, [y] => Ok (map (fun x => f x y) a)
       | _, _ => Raise TypeError
       end.

(** An integer index array: [jnp.argmax] returns a zero-dimensional array,
    [jnp.append] a one-dimensional one. *)
Inductive index_array : Type :=
| Scalar (i : nat)
| Vector (l : list nat).

Definition ravel (a : index_array) : list nat :=
  match a with
  | Scalar i => [i]
  | Vector l => l
  end.

(** [jnp.append(a, i)]: both operands are flattened. *)
Definition append (a : index_array) (i : nat) : index_array :=
  Vector (ravel a ++ [i]).

(** [a[-1]] for a one-dimensional [a]. *)
Definition last_index (a : index_array) : nat := last (ravel a) 0%nat.

(** [s.at[sel].set(v)] for an index array [sel]. *)
Definition set_indices (sel : index_array) (v : xfloat) (s : list xfloat)
  : list xfloat :=
  fold_left (fun acc i => set_at i v acc) (ravel sel) s.

(** Vocabulary of the proofs. *)

Definition no_nan (x : xfloat) : Prop := x <> NaN.

(** An entry of a finite array after masking: finite, or the mask -inf. *)
Definition masked_or_fin (x : xfloat) : Prop :=
  match x with NInf | Fin _ => True | _ => False end.

End Arr.

(* ================================================================== *)
(** * diversity/mmr.py *)

Module MMR.
Import Arr.

(** The two [scores = ...] lines of the loop body: the marginal scores of
    all candidates, the already selected ones masked. *)
Definition marginal_scores (lbd : Q) (quality_scores : list xfloat)
           (similarity_scores : matrix) (new_selection : index_array)
  : result (list xfloat) :=
  row_max <- max_axis1 similarity_scores ;;
  scores <- broadcast2 xsub (map (smul lbd) quality_scores)
                            (map (smul (1 - lbd)) row_max) ;;
  Ok (set_indices new_selection NInf scores).

(** The body of [for _ in range(k - 1)], iterated [iters] times. *)
Fixpoint rerank_loop (iters : nat) (lbd : Q) (quality_scores : list xfloat)
         (similarity_scores : matrix) (new_selection : index_array)
  : result index_array :=
  match iters with
  | O => Ok new_selection
  | S iters' =>
      scores <- marginal_scores lbd quality_scores similarity_scores
                                new_selection ;;
      pick <- argmax scores ;;
      let new_selection := append new_selection pick in
      let similarity_scores :=
        set_column (last_index new_selection) NInf similarity_scores in
      rerank_loop iters' lbd quality_scores similarity_scores new_selection
  end.

(** [MaximalMarginalRelevance(lbd).rerank(quality_scores,
    similarity_scores=..., k=k)]. *)
Definition rerank (lbd : Q) (quality_scores : list xfloat)
           (similarity_scores : matrix) (k : Z) : result index_array :=
  let n := Z.of_nat (length quality_scores) in
  let k := Z.min k n in
  new_selection <- argmax quality_scores ;;
  let similarity_scores := set_column new_selection NInf similarity_scores in
  rerank_loop (Z.to_nat (k - 1)) lbd quality_scores similarity_scores
              (Scalar new_selection).

(** ** Vocabulary of the claims *)

(** A finite score vector and a finite similarity matrix. *)
Definition finite_vector (qs : list Q) : list xfloat := map Fin qs.
Definition finite_matrix (sm : list (list Q)) : matrix := map (map Fin) sm.

(** The input of the spec's diversity example. *)
Definition example_quality : list Q := [9 # 10; 8 # 10; 7 # 10].

Definition example_similarity : list (list Q) :=
  [ [0; 9 # 10; 1 # 10];
    [9 # 10; 0; 1 # 10];
    [1 # 10; 1 # 10; 0] ].

(** [sm] is an [n] x [n] matrix. *)
Definition square (n : nat) (sm : list (list Q)) : Prop :=
  length sm = n /\ Forall (fun r => length r = n) sm.

(** The descending order of the quality scores, as the spec words it:
    candidate [i] comes before candidate [j] when its quality is higher,
    or equal with [i] the lower index. *)
Definition precedes (qs : list Q) (i j : nat) : bool :=
  match nth j qs 0 ?= nth i qs 0 with
  | Lt => true
  | Eq => Nat.ltb i j
  | Gt => false
  end.

Fixpoint insert_descending (qs : list Q) (i : nat) (p : list nat)
  : list nat :=
  match p with
  | [] => [i]
  | j :: t =>
      if precedes qs i j then i :: p else j :: insert_descending qs i t
  end.

Definition descending_order (qs : list Q) : list nat :=
  fold_right (insert_descending qs) [] (seq 0 (length qs)).






End MMR.

(* ================================================================== *)
(** * Library operations used by recommenders/base.py *)

Module Lib.
Import Arr.

(** ** pandas: [pd.Categorical(values).codes]

    Raw identifiers are integers.  With no [categories] argument the
    categories are the sorted distinct values, and the code of a value is
    its position among them. *)

Fixpoint insert_category (x : Z) (cats : list Z) : list Z :=
  match cats with
  | [] => [x]
  | y :: t =>
      if (x <? y)%Z then x :: cats
      else if (x =? y)%Z then cats
      else y :: insert_category x t
  end.

Definition categories (values : list Z) : list Z :=
  fold_right insert_category [] values.

Fixpoint position_from (i : Z) (x : Z) (cats : list Z) : Z :=
  match cats with
  | [] => (-1)%Z
  | y :: t => if (x =? y)%Z then i else position_from (i + 1) x t
  end.

Definition code_of (values : list Z) (x : Z) : Z :=
  position_from 0 x (categories values).

Definition codes (values : list Z) : list Z :=
  map (code_of values) values.

(** ** Python and numpy scalars *)

(** A numpy scalar: an integer, or a float (nan included). *)
Inductive number : Type :=
| IntN (z : Z)
| FloatN (x : xfloat).

(** [column.max()] of a column of codes: the maximum of an empty column
    is nan. *)
Definition column_max (column : list Z) : number :=
  match column with
  | [] => FloatN NaN
  | x :: t => IntN (fold_left Z.max t x)
  end.

(** The conversion to float64 of an entry of a Series of float dtype. *)
Definition as_float (n : number) : number :=
  match n with
  | IntN z => FloatN (Fin (inject_Z z))
  | FloatN x => FloatN x
  end.

(** [n + 1]. *)
Definition plus_one (n : number) : number :=
  match n with
  | IntN z => IntN (z + 1)
  | FloatN (Fin q) => FloatN (Fin (q + 1))
  | FloatN x => FloatN x
  end.

(** A value of an int64 column. *)
Definition in_int64 (z : Z) : bool :=
  ((- 2 ^ 63 <=? z) && (z <=? 2 ^ 63 - 1))%Z.

Record int64 : Type := mk_int64 {
  int64_val : Z;
  int64_range : in_int64 int64_val = true
}.

(** An interaction value: an integer or a (finite) float.  A column is of
    dtype int64 when all its values are integers, and of dtype float64 as
    soon as one of them is a float. *)
Inductive value : Type :=
| IntValue (z : int64)
| FloatValue (q : Q).

Definition int64_of (z : Z) (H : in_int64 z = true) : value :=
  IntValue (mk_int64 z H).

Definition is_float (v : value) : bool :=
  match v with
  | FloatValue _ => true
  | IntValue _ => false
  end.

Definition float_column (column : list value) : bool :=
  existsb is_float column.

(** [int(x)]: truncation toward zero. *)
Definition Qtrunc (x : Q) : Z := Z.quot (Qnum x) (Zpos (Qden x)).

Definition int32_min : Z := (- 2 ^ 31)%Z.
Definition int32_max : Z := (2 ^ 31 - 1)%Z.

(** The int32 with the low 32 bits of [z]. *)
Definition wrap32 (z : Z) : Z :=
  ((z + 2 ^ 31) mod 2 ^ 32 - 2 ^ 31)%Z.

(** [astype("int32")]: an int64 keeps its low 32 bits; a float is
    truncated toward zero when that fits in 32 bits, and for the other
    floats the C cast behind it is undefined: the x86-64 result, the
    smallest int32, stands for them. *)
Definition astype_int32 (v : value) : Z :=
  match v with
  | IntValue z => wrap32 (int64_val z)
  | FloatValue q =>
      let t := Qtrunc q in
      if ((int32_min <=? t) && (t <=? int32_max))%Z then t else int32_min
  end.

(** ** scipy: [sps.coo_matrix((data, (row, col)), shape, "int32")] *)

Record coo_matrix : Type := mk_coo {
  shape : Z * Z;
  row : list Z;
  col : list Z;
  data : list Z
}.

Definition index_in_bounds (bound : Z) (i : Z) : bool :=
  ((0 <=? i) && (i <? bound))%Z.

(** The shape is checked first and must be a pair of integers; then the
    values are cast and the indices checked against the shape. *)
Definition new_coo_matrix (values : list value) (rows cols : list Z)
           (shp : number * number) : result coo_matrix :=
  match shp with
  | (IntN m, IntN n) =>
      if forallb (index_in_bounds m) rows
         && forallb (index_in_bounds n) cols
      then Ok (mk_coo (m, n) rows cols (map astype_int32 values))
      else Raise ValueError
  | _ => Raise TypeError
  end.

(** ** numpy: integer-array assignment [a[idx] = v] *)

Fixpoint assign_items (idx : list Z) (v : xfloat) (a : list xfloat)
  : result (list xfloat) :=
  match idx with
  | [] => Ok a
  | i :: rest =>
      let n := Z.of_nat (length a) in
      if ((0 <=? i) && (i <? n))%Z
      then assign_items rest v (set_at (Z.to_nat i) v a)
      else if ((- n <=? i) && (i <? 0))%Z
      then assign_items rest v (set_at (Z.to_nat (n + i)) v a)
      else Raise IndexError
  end.

(** [a[key]] for a non-negative key. *)
Definition getitem (a : list xfloat) (key : nat) : result xfloat :=
  match nth_error a key with
  | Some x => Ok x
  | None => Raise IndexError
  end.

(** [l[:stop]]. *)
Definition slice_to (stop : Z) (l : list nat) : list nat :=
  if (stop <? 0)%Z
  then firstn (Z.to_nat (Z.of_nat (length l) + stop)) l
  else firstn (Z.to_nat stop) l.

(** ** numpy: the order of [sort], [argsort] and [argpartition]: nan last *)

Definition sort_leb (x y : xfloat) : bool :=
  match x, y with
  | _, NaN => true
  | NaN, _ => false
  | _, _ => negb (xltb y x)
  end.

(** What numpy promises of [p = argpartition(a, kth)] for [0 <= kth < len(a)]:
    [p] lists every index once, the element at position [kth] is where a
    sort would put it, the smaller ones are before it and the larger ones
    after it.  The order inside the two parts is not promised. *)
Definition partitions_at (a : list xfloat) (kth : nat) (p : list nat) : Prop :=
  Permutation p (seq 0 (length a)) /\
  forall i j, (i <= kth <= j)%nat -> (j < length a)%nat ->
    sort_leb (nth (nth i p 0%nat) a NaN) (nth (nth kth p 0%nat) a NaN) = true /\
    sort_leb (nth (nth kth p 0%nat) a NaN) (nth (nth j p 0%nat) a NaN) = true.

Definition argpartition_spec (argpartition : list xfloat -> nat -> list nat)
  : Prop :=
  forall a kth, (kth < length a)%nat -> partitions_at a kth (argpartition a kth).

(** [np.argpartition(a, kth)] over a selection routine [argpartition]:
    the bounds check and the wrap of a negative [kth]. *)
Definition np_argpartition (argpartition : list xfloat -> nat -> list nat)
           (a : list xfloat) (kth : Z) : result (list nat) :=
  let n := Z.of_nat (length a) in
  if ((- n <=? kth) && (kth <? n))%Z
  then Ok (argpartition a (Z.to_nat (if (kth <? 0)%Z then kth + n else kth)))
  else Raise ValueError.

(** ** Python: a [dict] keeps insertion order; setting a present key
    replaces its value in place. *)
Definition dict : Type := list (nat * xfloat).

Fixpoint dict_set (key : nat) (v : xfloat) (d : dict) : dict :=
  match d with
  | [] => [(key, v)]
  | (key', v') :: t =>
      if Nat.eqb key key' then (key, v) :: t
      else (key', v') :: dict_set key v t
  end.

(** ** Vocabulary of the claims *)

(** The distinct values in the order of their first occurrence. *)
Fixpoint first_seen (values : list Z) : list Z :=
  match values with
  | [] => []
  | x :: t => x :: filter (fun y => negb (y =? x)%Z) (first_seen t)
  end.

(** [cs] codes [values] by position in the list [cats] of categories. *)
Definition coded_by (cats values cs : list Z) : Prop :=
  Forall2 (fun x c => (0 <= c)%Z /\ nth_error cats (Z.to_nat c) = Some x)
          values cs.

(** First-seen coding, as the spec words it. *)
Definition first_seen_codes (values cs : list Z) : Prop :=
  coded_by (first_seen values) values cs.

(** Sorted coding: the categories are the distinct values in increasing
    order. *)
Definition sorted_codes (values cs : list Z) : Prop :=
  exists cats,
    StronglySorted Z.lt cats /\
    (forall x, In x cats <-> In x values) /\
    coded_by cats values cs.

End Lib.

(* ================================================================== *)
(** * recommenders/base.py *)

Module Recommender.
Import Arr Lib.

(** A row of the caller's table (its first three columns) and a row of the
    normalized frame [df_interaction]. *)
Record raw_row : Type := mk_raw {
  raw_user : Z;
  raw_item : Z;
  raw_interaction : value
}.

Record interaction_row : Type := mk_row {
  userId : Z;
  itemId : Z;
  interaction : value
}.

Definition frame : Type := list interaction_row.

(** [get_interaction]: the two id columns are replaced by their
    categorical codes, the interaction column is kept. *)
Definition get_interaction (df_interaction : list raw_row) : frame :=
  map (fun r =>
         mk_row (code_of (map raw_user df_interaction) (raw_user r))
                (code_of (map raw_item df_interaction) (raw_item r))
                (raw_interaction r))
      df_interaction.

(** The recommender object.  The catalogue [items] and the two feature
    tables are carried along unread by the methods below and are left out. *)
Record BaseRecommender : Type := mk_recommender {
  df_interaction : frame;
  n_users : Z;
  n_items : Z;
  test_size : Q;
  random_split : bool;
  train_mat : coo_matrix;
  test_mat : coo_matrix
}.

Section Methods.

(** [sklearn.model_selection.train_test_split(df, test_size=...,
    random_state=42)], returning [(train, test)] or raising. *)
Variable train_test_split : frame -> Q -> result (frame * frame).

(** The abstract method [predict]; the feature arguments are fixed per
    object and are part of the scorer. *)
Variable predict : list Z -> list Z -> result (list xfloat).

(** The selection routine behind [np.argpartition]. *)
Variable argpartition : list xfloat -> nat -> list nat.

(** The [if]/[else] of [process_interaction]: [(train, test)]. *)
Definition split_rows (dataframe : frame) (test_size : Q)
           (random_split : bool) : result (frame * frame) :=
  if negb random_split && (match 1 ?= test_size with Lt => true | _ => false end)
  then Ok (skipn (Z.to_nat (Qtrunc test_size)) dataframe,
           firstn (Z.to_nat (Qtrunc test_size)) dataframe)
  else train_test_split dataframe test_size.

Definition process_interaction (dataframe : frame)
           (n_users n_items : number)
           (test_size : Q) (random_split : bool)
  : result (coo_matrix * coo_matrix) :=
  ' (train, test) <- split_rows dataframe test_size random_split ;;
  train_mat <- new_coo_matrix (map interaction train)
                 (map userId train) (map itemId train) (n_users, n_items) ;;
  test_mat <- new_coo_matrix (map interaction test)
                (map userId test) (map itemId test) (n_users, n_items) ;;
  Ok (train_mat, test_mat).

(** [df_interaction.max()[:2] + 1]: the maxima of the three columns make
    one Series, of float dtype as soon as one maximum is a float, which
    the maximum of a float interaction column is, and the nan of the
    columns of an empty frame. *)
Definition dimensions (df : frame) : number * number :=
  let max_user := column_max (map userId df) in
  let max_item := column_max (map itemId df) in
  let float :=
    match df with
    | [] => true
    | _ => float_column (map interaction df)
    end in
  if float
  then (plus_one (as_float max_user), plus_one (as_float max_item))
  else (plus_one max_user, plus_one max_item).

(** [BaseRecommender.__init__].  The object exists once both matrices are
    built, which takes integer dimensions: they are what the record
    holds. *)
Definition init (raw : list raw_row) (test_size : Q) (random_split : bool)
  : result BaseRecommender :=
  let df := get_interaction raw in
  let (n_users, n_items) := dimensions df in
  ' (train_mat, test_mat) <-
      process_interaction df n_users n_items test_size random_split ;;
  match n_users, n_items with
  | IntN n_users, IntN n_items =>
      Ok (mk_recommender df n_users n_items test_size random_split
                         train_mat test_mat)
  | _, _ => Raise TypeError
  end.

Definition predict_for_userId (self : BaseRecommender) (user_id : Z)
  : result (list xfloat) :=
  let user_ids := repeat user_id (Z.to_nat (n_items self)) in
  let item_ids := map Z.of_nat (seq 0 (Z.to_nat (n_items self))) in
  predict user_ids item_ids.

(** The item codes of the rows of [df_interaction] whose user is [user_id]. *)
Definition seen_items (self : BaseRecommender) (user_id : Z) : list Z :=
  map itemId
      (filter (fun r => (userId r =? user_id)%Z) (df_interaction self)).

Definition predict_for_userId_unseen (self : BaseRecommender) (user_id : Z)
  : result (list xfloat) :=
  let seen := seen_items self user_id in
  prediction <- predict_for_userId self user_id ;;
  assign_items seen NInf prediction.

(** [{key: prediction[key] for key in result_args}]. *)
Fixpoint dict_of_keys (prediction : list xfloat) (keys : list nat) (d : dict)
  : result dict :=
  match keys with
  | [] => Ok d
  | key :: rest =>
      v <- getitem prediction key ;;
      dict_of_keys prediction rest (dict_set key v d)
  end.

Definition predict_top_n_unseen (self : BaseRecommender) (user_id : Z)
           (top_n : Z) : result dict :=
  prediction <- predict_for_userId_unseen self user_id ;;
  argpart <- np_argpartition argpartition (map xneg prediction) top_n ;;
  let result_args := slice_to top_n argpart in
  dict_of_keys prediction result_args [].

End Methods.

(** ** Vocabulary of the claims *)

(** What [train_test_split] promises: the two parts hold the rows of the
    frame, each once. *)
Definition splits_rows (train_test_split : frame -> Q -> result (frame * frame))
  : Prop :=
  forall df test_size train test,
    train_test_split df test_size = Ok (train, test) ->
    Permutation (train ++ test) df.

(** [n] is one plus the maximum of the column. *)
Definition max_plus_one (column : list Z) (n : Z) : Prop :=
  In (n - 1)%Z column /\ Forall (fun c => (c < n)%Z) column.

(** User [u] has a row with item [i] in the frame. *)
Definition interacted (df : frame) (u i : Z) : Prop :=
  exists r, In r df /\ userId r = u /\ itemId r = i.

(** The item codes below [n] that [seen] does not hold. *)
Definition unseen_codes (seen : list Z) (n : nat) : list nat :=
  filter (fun i => negb (existsb (Z.eqb (Z.of_nat i)) seen)) (seq 0 n).

End Recommender.

(* ================================================================== *)
(** * Concrete collaborators, for running the model *)

Module Sample.
Import Arr Lib Recommender.

(** An [argpartition] that sorts the indices completely (stable insertion
    sort by [sort_leb]): one of the orders numpy may return. *)
Fixpoint insert_index (a : list xfloat) (i : nat) (p : list nat) : list nat :=
  match p with
  | [] => [i]
  | j :: t =>
      if sort_leb (nth i a NaN) (nth j a NaN) then i :: p
      else j :: insert_index a i t
  end.

Definition argsort (a : list xfloat) : list nat :=
  fold_right (insert_index a) [] (seq 0 (length a)).

Definition sorting_argpartition (a : list xfloat) (kth : nat) : list nat :=
  argsort a.

(** The order [argsort] sorts the indices of [a] by. *)
Definition key_leb (a : list xfloat) (i j : nat) : Prop :=
  sort_leb (nth i a NaN) (nth j a NaN) = true.

(** A scorer that never fails: the score of item [i] is [i]. *)
Definition item_code_scorer (user_ids item_ids : list Z)
  : result (list xfloat) :=
  Ok (map (fun i => Fin (inject_Z i)) item_ids).

(** A splitter standing for the seeded shuffle: the last row is the test
    part; a frame of fewer than two rows is refused. *)
Definition last_row_split (df : frame) (test_size : Q)
  : result (frame * frame) :=
  match df with
  | [] | [_] => Raise ValueError
  | _ => Ok (removelast df, [last df (mk_row 0 0 (int64_of 0 eq_refl))])
  end.

(** Three interactions of two users with three items; raw ids are not in
    increasing order. *)
Definition raw_table : list raw_row :=
  [ mk_raw 50 700 (int64_of 5 eq_refl);
    mk_raw 30 900 (int64_of 3 eq_refl);
    mk_raw 50 800 (int64_of 4 eq_refl) ].

(** The same table with ratings in half steps: a float interaction
    column. *)
Definition float_table : list raw_row :=
  [ mk_raw 50 700 (FloatValue (5 # 1));
    mk_raw 30 900 (FloatValue (7 # 2));
    mk_raw 50 800 (FloatValue (9 # 2)) ].

(** A table with an integer value beyond 32 bits, 2^32 + 1. *)
Definition wide_table : list raw_row :=
  [ mk_raw 1 1 (int64_of 4294967297 eq_refl);
    mk_raw 2 2 (int64_of 3 eq_refl);
    mk_raw 1 2 (int64_of 7 eq_refl) ].

End Sample.

(* ================================================================== *)
(** * The size of the selection of the reranker *)

Module Picks.
Import Arr MMR.

(** The number of indices [rerank] returns. *)
Definition selection_size (k : Z) (n : nat) : nat :=
  Z.to_nat (Z.max 1 (Z.min k (Z.of_nat n))).

End Picks.

(* ================================================================== *)
(** * recommenders/base.py: [predict_top_n_item] *)

Module Catalogue.
Import Arr Lib Recommender.

(** The order of [sort_values(ascending=False)]: larger first, nan last. *)
Definition desc_leb (x y : xfloat) : bool :=
  match x, y with
  | _, NaN => true
  | NaN, _ => false
  | _, _ => negb (xltb x y)
  end.

(** A row of the candidates frame: [(itemId, scores)]. *)
Definition candidate : Type := (nat * xfloat)%type.

Definition by_score (a b : candidate) : Prop :=
  desc_leb (snd a) (snd b) = true.

(** What pandas promises of [sort_values(by="scores", ascending=False)]:
    the same rows, in the order [desc_leb] on the scores; the default
    quicksort leaves the order of equal scores open. *)
Definition sorts_descending (sort_values : list candidate -> list candidate)
  : Prop :=
  forall rows,
    Permutation (sort_values rows) rows /\
    StronglySorted by_score (sort_values rows).

(** [pd.DataFrame.from_dict(prediction.items())] followed by the
    assignment of the two column names: a mapping without entries gives a
    frame without columns, on which the assignment raises. *)
Definition candidates_frame (prediction : dict) : result (list candidate) :=
  match prediction with
  | [] => Raise ValueError
  | _ => Ok prediction
  end.

Section Join.

(** The columns of the catalogue [items] beside [itemId]. *)
Variable attrs : Type.

Variable predict : list Z -> list Z -> result (list xfloat).
Variable argpartition : list xfloat -> nat -> list nat.
Variable sort_values : list candidate -> list candidate.

(** The catalogue rows whose [itemId] is [key]. *)
Definition matches (items : list (Z * attrs)) (key : nat)
  : list (Z * attrs) :=
  filter (fun it => (fst it =? Z.of_nat key)%Z) items.

(** [candidates.merge(items, how="left", on="itemId")]: the candidates in
    their order, each once per matching catalogue row, or once with null
    attributes when none matches. *)
Definition merge_left (candidates : list candidate)
           (items : list (Z * attrs)) : list (candidate * option attrs) :=
  flat_map (fun c =>
              match matches items (fst c) with
              | [] => [(c, None)]
              | ms => map (fun it => (c, Some (snd it))) ms
              end)
           candidates.

Definition predict_top_n_item (items : list (Z * attrs))
           (self : BaseRecommender) (user_id : Z) (top_n : Z)
  : result (list (candidate * option attrs)) :=
  prediction <- predict_top_n_unseen predict argpartition self user_id top_n ;;
  candidates <- candidates_frame prediction ;;
  let candidates := sort_values candidates in
  Ok (merge_left candidates items).

End Join.

Arguments matches {attrs} items key.
Arguments merge_left {attrs} candidates items.
Arguments predict_top_n_item {attrs} predict argpartition sort_values
  items self user_id top_n.

(** ** Concrete collaborators *)

(** A stable insertion sort by [desc_leb]: one of the orders pandas may
    return. *)
Fixpoint insert_candidate (c : candidate) (rows : list candidate)
  : list candidate :=
  match rows with
  | [] => [c]
  | r :: t =>
      if desc_leb (snd c) (snd r) then c :: rows
      else r :: insert_candidate c t
  end.

Definition insertion_sort_values (rows : list candidate) : list candidate :=
  fold_right insert_candidate [] rows.

(** A catalogue of titles that knows the item codes 0 and 2 only. *)
Definition titles : list (Z * nat) := [ (0%Z, 100%nat); (2%Z, 102%nat) ].

End Catalogue.

(* ================================================================== *)
(** * Vocabulary for the interaction matrices *)

Module Entries.
Import Arr Lib Recommender.

(** The stored entries of a matrix: [(row, col, value)]. *)
Definition coo_entries (m : coo_matrix) : list (Z * Z * Z) :=
  combine (combine (row m) (col m)) (data m).

(** The entry a row of the frame becomes. *)
Definition entry_of (r : interaction_row) : Z * Z * Z :=
  (userId r, itemId r, astype_int32 (interaction r)).

(** A normalized row read back as a raw row. *)
Definition as_raw (r : interaction_row) : raw_row :=
  mk_raw (userId r) (itemId r) (interaction r).

(** The position [np.argpartition] partitions at. *)
Definition partition_rank (top_n : Z) (n : nat) : nat :=
  Z.to_nat (if (top_n <? 0)%Z then top_n + Z.of_nat n else top_n).

(** The number of entries of the returned mapping. *)
Definition mapping_size (top_n : Z) (n : nat) : nat :=
  Z.to_nat (if (top_n <? 0)%Z then Z.of_nat n + top_n else top_n).

(** A scorer that returns two scores whatever it is asked. *)
Definition short_scorer (user_ids item_ids : list Z) : result (list xfloat) :=
  Ok [Fin 1; Fin 2].

End Entries.

(* ================================================================== *)
(** * Facts about the array operations *)

Module ArrFacts.
Import Arr.

Lemma masked_or_fin_no_nan x : masked_or_fin x -> no_nan x.
Proof. destruct x; simpl; intros H; try contradiction; discriminate. Qed.

Ltac order_cases :=
  repeat match goal with
         | x : xfloat |- _ => destruct x
         end;
  unfold no_nan in *; simpl in *; try congruence;
  repeat match goal with
         | H : context [?a ?= ?b] |- _ => destruct (Qcompare_spec a b)
         | |- context [?a ?= ?b] => destruct (Qcompare_spec a b)
         end;
  try congruence; try lra.









(** ** Scatter updates *)

Lemma set_at_length {A} j (v : A) l : length (set_at j v l) = length l.
Proof.
  revert j; induction l as [|x t IH]; intros [|j]; simpl; auto.
Qed.

Lemma nth_set_at_eq {A} j (v d : A) l :
  (j < length l)%nat -> nth j (set_at j v l) d = v.
Proof.
  revert j; induction l as [|x t IH]; intros [|j] H; simpl in *; try lia; auto.
  apply IH. lia.
Qed.

Lemma nth_set_at_neq {A} i j (v d : A) l :
  i <> j -> nth i (set_at j v l) d = nth i l d.
Proof.
  revert i j; induction l as [|x t IH]; intros [|i] [|j] H; simpl;
    try reflexivity; try congruence.
  apply IH. congruence.
Qed.

Lemma fold_set_at_length (v : xfloat) idx : forall s,
  length (fold_left (fun acc i => set_at i v acc) idx s) = length s.
Proof.
  induction idx as [|i t IH]; intros s; simpl; [reflexivity|].
  rewrite IH. apply set_at_length.
Qed.

Lemma nth_fold_set_at (v d : xfloat) idx : forall s j,
  (j < length s)%nat ->
  nth j (fold_left (fun acc i => set_at i v acc) idx s) d =
  if in_dec Nat.eq_dec j idx then v else nth j s d.
Proof.
  induction idx as [|i t IH]; intros s j Hj; simpl fold_left.
  - reflexivity.
  - rewrite IH by (rewrite set_at_length; exact Hj).
    destruct (in_dec Nat.eq_dec j t) as [Ht|Ht];
      destruct (in_dec Nat.eq_dec j (i :: t)) as [Hit|Hit]; simpl in *.
    + reflexivity.
    + exfalso. apply Hit. right. exact Ht.
    + destruct Hit as [->|Hit]; [|contradiction].
      apply nth_set_at_eq. exact Hj.
    + apply nth_set_at_neq. intros ->. apply Hit. left. reflexivity.
Qed.



End ArrFacts.

(* ================================================================== *)
(** * Facts about the reranker loop *)

Module MMRFacts.
Import Arr ArrFacts MMR.

(** ** Row maxima of the masked matrix *)






(** ** Masking one more column *)




(** ** One iteration of the loop *)







(** ** The whole loop *)





End MMRFacts.

(* ================================================================== *)
(** * The descending order of the quality scores *)

Module OrderFacts.
Import Arr ArrFacts MMR MMRFacts.













End OrderFacts.

(* ================================================================== *)
(** * Properties of [rerank] *)

Module MMRSpec.
Import Arr ArrFacts MMR MMRFacts OrderFacts.



(** C1 (as the code behaves).  On the spec's diversity example
    (quality [0.9, 0.8, 0.7], lambda = 0.5, k = 2) [rerank] returns
    [0, 1]: index 0 is the quality argmax; then column 0 is masked, the row
    maxima over the remaining columns are [0.9, 0.1, 0.1], and index 1
    (0.5*0.8 - 0.5*0.1 = 0.35) beats index 2 (0.5*0.7 - 0.5*0.1 = 0.30). *)
Theorem rerank_example_selects_0_1 :
  rerank (1 # 2) (finite_vector example_quality)
         (finite_matrix example_similarity) 2 = Ok (Vector [0; 1]%nat)
  /\ marginal_scores (1 # 2) (finite_vector example_quality)
       (set_column 0 NInf (finite_matrix example_similarity)) (Scalar 0)
     = Ok [NInf; Fin (140 # 400); Fin (120 # 400)].
Proof. split; vm_compute; reflexivity. Qed.

(** C1 as stated fails: the example's output is not the sequence [0, 2]. *)
Lemma rerank_example_not_0_2 :
  ~ exists out,
      rerank (1 # 2) (finite_vector example_quality)
             (finite_matrix example_similarity) 2 = Ok out /\
      ravel out = [0; 2]%nat.
Proof.
  intros (out & Hout & Hravel).
  vm_compute in Hout. inversion Hout; subst. discriminate Hravel.
Qed.

(** C4 (what the code does).  For [k <= 0] and at least one candidate,
    [rerank] returns the zero-dimensional index [argmax(quality_scores)]:
    one selected index, not an empty sequence. *)
Theorem rerank_nonpositive_k_returns_argmax lbd quality sim k :
  quality <> [] -> (k <= 0)%Z ->
  exists i, argmax quality = Ok i /\
            rerank lbd quality sim k = Ok (Scalar i) /\
            ravel (Scalar i) <> [].
Proof.
  intros Hne Hk. destruct quality as [|x t]; [congruence|].
  eexists. split; [reflexivity|]. split; [|discriminate].
  unfold rerank.
  replace (Z.to_nat (Z.min k (Z.of_nat (length (x :: t))) - 1)) with 0%nat by lia.
  reflexivity.
Qed.

Lemma rerank_nonpositive_k_witness :
  exists i, argmax (finite_vector example_quality) = Ok i /\
            rerank (1 # 2) (finite_vector example_quality)
                   (finite_matrix example_similarity) 0 = Ok (Scalar i) /\
            ravel (Scalar i) <> [].
Proof.
  apply rerank_nonpositive_k_returns_argmax; [discriminate | lia].
Defined.

(** C5 (what the code does on the failing inputs).  With lambda = 1, a
    finite quality vector of length n >= 1, a finite n x n similarity
    matrix and [k <= 0], [rerank] returns one index (the quality argmax,
    as a zero-dimensional array), where the first [min(k, n)] indices of
    the descending order of the quality scores are none. *)
Theorem rerank_quality_only_nonpositive_k qs sm k :
  qs <> [] -> square (length qs) sm -> (k <= 0)%Z ->
  exists i,
    rerank 1 (finite_vector qs) (finite_matrix sm) k = Ok (Scalar i) /\
    ravel (Scalar i) = [i] /\
    firstn (Z.to_nat (Z.min k (Z.of_nat (length qs)))) (descending_order qs)
      = [].
Proof.
  intros Hne _ Hk. destruct qs as [|x t]; [congruence|].
  eexists. split; [|split; [reflexivity|]].
  - unfold rerank, finite_vector.
    replace (Z.to_nat (Z.min k (Z.of_nat (length (map Fin (x :: t)))) - 1))
      with 0%nat by lia.
    reflexivity.
  - replace (Z.to_nat (Z.min k (Z.of_nat (length (x :: t))))) with 0%nat by lia.
    reflexivity.
Qed.

Lemma rerank_quality_only_nonpositive_k_witness :
  exists i,
    rerank 1 (finite_vector example_quality)
           (finite_matrix example_similarity) 0 = Ok (Scalar i) /\
    ravel (Scalar i) = [i] /\
    firstn (Z.to_nat (Z.min 0 (Z.of_nat (length example_quality))))
           (descending_order example_quality) = [].
Proof.
  apply rerank_quality_only_nonpositive_k.
  - discriminate.
  - split; [reflexivity | repeat constructor].
  - lia.
Defined.

(** C6 (what the code does on the failing inputs).  With a finite
    quality vector of length n >= 1, a finite n x n similarity matrix,
    any lambda and [k <= 0], [rerank] returns one index, where the
    claimed length [min(k, n)] is 0 at [k = 0] (and negative below). *)
Theorem rerank_length_nonpositive_k lbd qs sm k :
  qs <> [] -> square (length qs) sm -> (k <= 0)%Z ->
  exists out,
    rerank lbd (finite_vector qs) (finite_matrix sm) k = Ok out /\
    length (ravel out) = 1%nat /\
    (Z.min k (Z.of_nat (length qs)) <= 0)%Z.
Proof.
  intros Hne _ Hk. destruct qs as [|x t]; [congruence|].
  assert (Hrun : exists i, rerank lbd (finite_vector (x :: t))
                             (finite_matrix sm) k = Ok (Scalar i)).
  { eexists. unfold rerank, finite_vector.
    replace (Z.to_nat (Z.min k (Z.of_nat (length (map Fin (x :: t)))) - 1))
      with 0%nat by lia.
    reflexivity. }
  destruct Hrun as [i Hi].
  exists (Scalar i). split; [exact Hi|]. split; [reflexivity | lia].
Qed.

Lemma rerank_length_nonpositive_k_witness :
  exists out,
    rerank (1 # 2) (finite_vector example_quality)
           (finite_matrix example_similarity) 0 = Ok out /\
    length (ravel out) = 1%nat /\
    (Z.min 0 (Z.of_nat (length example_quality)) <= 0)%Z.
Proof.
  apply rerank_length_nonpositive_k.
  - discriminate.
  - split; [reflexivity | repeat constructor].
  - lia.
Defined.



End MMRSpec.

(* ================================================================== *)
(** * Facts about the library operations *)

Module LibFacts.
Import Arr ArrFacts Lib.

(** ** Categorical codes *)

Lemma insert_category_in x y cats :
  In y (insert_category x cats) <-> y = x \/ In y cats.
Proof.
  induction cats as [|c t IH]; simpl.
  - intuition.
  - destruct (Z.ltb_spec x c); [simpl; intuition|].
    destruct (Z.eqb_spec x c); simpl.
    + subst. intuition.
    + rewrite IH. intuition.
Qed.

Lemma insert_category_sorted x cats :
  StronglySorted Z.lt cats -> StronglySorted Z.lt (insert_category x cats).
Proof.
  induction 1 as [|c t Ht IH Hc]; simpl.
  - constructor; constructor.
  - destruct (Z.ltb_spec x c).
    + constructor; [constructor; assumption|].
      constructor; [assumption|].
      eapply Forall_impl; [|exact Hc]. simpl. intros; lia.
    + destruct (Z.eqb_spec x c); [constructor; assumption|].
      constructor; [exact IH|].
      apply Forall_forall. intros y Hy. apply insert_category_in in Hy.
      destruct Hy as [->|Hy]; [lia|].
      rewrite Forall_forall in Hc. apply Hc. exact Hy.
Qed.

Lemma categories_in values x : In x (categories values) <-> In x values.
Proof.
  unfold categories. induction values as [|v t IH]; simpl; [tauto|].
  rewrite insert_category_in, IH. intuition.
Qed.

Lemma categories_sorted values : StronglySorted Z.lt (categories values).
Proof.
  unfold categories. induction values as [|v t IH]; simpl.
  - constructor.
  - apply insert_category_sorted. exact IH.
Qed.

Lemma position_from_found x cats : forall i,
  In x cats ->
  exists k, position_from i x cats = (i + Z.of_nat k)%Z /\
            nth_error cats k = Some x.
Proof.
  induction cats as [|c t IH]; intros i Hin; [contradiction|]. simpl.
  destruct (Z.eqb_spec x c) as [->|Hne].
  - exists 0%nat. split; [lia | reflexivity].
  - destruct Hin as [Hc|Hin]; [congruence|].
    destruct (IH (i + 1)%Z Hin) as (k & Hk & Hnth).
    exists (S k). split; [lia | exact Hnth].
Qed.

Lemma code_of_spec values x :
  In x values ->
  (0 <= code_of values x)%Z /\
  nth_error (categories values) (Z.to_nat (code_of values x)) = Some x.
Proof.
  intros Hin. unfold code_of.
  destruct (position_from_found x (categories values) 0) as (k & Hk & Hnth).
  - apply categories_in. exact Hin.
  - rewrite Hk. simpl. rewrite Nat2Z.id. split; [lia | exact Hnth].
Qed.

Lemma codes_coded values : coded_by (categories values) values (codes values).
Proof.
  unfold coded_by, codes.
  assert (H : forall l, incl l values ->
            Forall2 (fun x c => (0 <= c)%Z /\
                       nth_error (categories values) (Z.to_nat c) = Some x)
                    l (map (code_of values) l)).
  { induction l as [|x l IH]; intros Hincl; simpl; constructor.
    - apply code_of_spec. apply Hincl. left. reflexivity.
    - apply IH. intros y Hy. apply Hincl. right. exact Hy. }
  apply H. apply incl_refl.
Qed.

Lemma codes_sorted values : sorted_codes values (codes values).
Proof.
  exists (categories values). split; [apply categories_sorted|].
  split; [apply categories_in | apply codes_coded].
Qed.

(** ** Column maximum *)

Lemma fold_max_bound t : forall x,
  (x <= fold_left Z.max t x)%Z /\
  Forall (fun y => (y <= fold_left Z.max t x)%Z) t.
Proof.
  induction t as [|y t IH]; intros x; simpl.
  - split; [lia | constructor].
  - destruct (IH (Z.max x y)) as [H1 H2]. split; [lia|].
    constructor; [lia | exact H2].
Qed.

Lemma column_max_bound column m :
  column_max column = IntN m -> Forall (fun y => (y <= m)%Z) column.
Proof.
  destruct column as [|x t]; simpl; [discriminate|].
  intros H. inversion H; subst.
  destruct (fold_max_bound t x). constructor; assumption.
Qed.

Lemma column_max_nonempty column :
  column <> [] -> exists m, column_max column = IntN m.
Proof.
  destruct column; [congruence|]. intros _. eexists; reflexivity.
Qed.

Lemma column_max_in column m : column_max column = IntN m -> In m column.
Proof.
  destruct column as [|x t]; simpl; [discriminate|].
  intros H. inversion H; subst; clear H.
  revert x. induction t as [|y t IH]; intros x; simpl; [left; reflexivity|].
  destruct (IH (Z.max x y)) as [E|Hin].
  - destruct (Z.max_spec x y) as [[_ Hm]|[_ Hm]].
    + right. left. congruence.
    + left. congruence.
  - right. right. exact Hin.
Qed.

(** ** Integer-array assignment *)

Lemma assign_items_in_bounds v idx : forall a,
  Forall (fun i => (0 <= i < Z.of_nat (length a))%Z) idx ->
  assign_items idx v a =
  Ok (fold_left (fun acc i => set_at i v acc) (map Z.to_nat idx) a).
Proof.
  induction idx as [|i t IH]; intros a Hall; simpl; [reflexivity|].
  inversion Hall as [|? ? Hi Ht]; subst.
  replace ((0 <=? i) && (i <? Z.of_nat (length a)))%Z with true
    by (symmetry; apply andb_true_iff; split;
        [apply Z.leb_le | apply Z.ltb_lt]; lia).
  apply IH. rewrite set_at_length. exact Ht.
Qed.

(** ** Dictionaries *)

Lemma dict_set_fresh key v d :
  ~ In key (map fst d) -> dict_set key v d = d ++ [(key, v)].
Proof.
  induction d as [|[k' v'] t IH]; simpl; intros Hnot; [reflexivity|].
  destruct (Nat.eqb_spec key k') as [->|Hne].
  - exfalso. apply Hnot. left. reflexivity.
  - rewrite IH; [reflexivity|]. intros Hc. apply Hnot. right. exact Hc.
Qed.

Lemma dict_set_in key v d k' v' :
  In (k', v') (dict_set key v d) -> (k', v') = (key, v) \/ In (k', v') d.
Proof.
  induction d as [|[k0 v0] t IH]; simpl.
  - intros [H|[]]. left. symmetry. exact H.
  - destruct (Nat.eqb_spec key k0) as [->|Hne]; simpl.
    + intros [H|H]; [left; symmetry; exact H | right; right; exact H].
    + intros [H|H]; [right; left; exact H|].
      destruct (IH H) as [E|E]; [left; exact E | right; right; exact E].
Qed.

(** ** Slices *)

Lemma slice_to_incl stop l : incl (slice_to stop l) l.
Proof.
  unfold slice_to. destruct (stop <? 0)%Z; intros x Hx;
    apply (In_nth _ _ 0%nat) in Hx; destruct Hx as (i & Hi & <-);
    rewrite length_firstn in Hi; rewrite nth_firstn;
    match goal with |- context [Nat.ltb ?a ?b] => destruct (Nat.ltb_spec a b) end;
    try lia; apply nth_In; lia.
Qed.

End LibFacts.

(* ================================================================== *)
(** * Facts about the recommender *)

Module RecommenderFacts.
Import Arr ArrFacts Lib LibFacts Recommender.

Lemma bind_ok {A B} (c : result A) (f : A -> result B) b :
  bind c f = Ok b -> exists a, c = Ok a /\ f a = Ok b.
Proof.
  destruct c as [a|e]; simpl; [|discriminate]. intros H. exists a. auto.
Qed.

Lemma new_coo_matrix_ok values rows cols a b m :
  new_coo_matrix values rows cols (IntN a, IntN b) = Ok m ->
  shape m = (a, b) /\ row m = rows /\ col m = cols /\
  data m = map astype_int32 values.
Proof.
  unfold new_coo_matrix.
  destruct (forallb (index_in_bounds a) rows
            && forallb (index_in_bounds b) cols); [|discriminate].
  intros H. inversion H; subst. simpl. auto.
Qed.

Lemma new_coo_matrix_int_shape values rows cols shp m :
  new_coo_matrix values rows cols shp = Ok m ->
  exists a b, shp = (IntN a, IntN b).
Proof.
  destruct shp as [[a|x] [b|y]]; simpl; try discriminate.
  intros _. exists a, b. reflexivity.
Qed.

Lemma new_coo_matrix_float_shape values rows cols x n :
  new_coo_matrix values rows cols (FloatN x, n) = Raise TypeError.
Proof. reflexivity. Qed.

Lemma new_coo_matrix_total values rows cols a b :
  Forall (fun i => (0 <= i < a)%Z) rows ->
  Forall (fun i => (0 <= i < b)%Z) cols ->
  exists m, new_coo_matrix values rows cols (IntN a, IntN b) = Ok m.
Proof.
  intros Hr Hc. unfold new_coo_matrix.
  assert (Hb : forall bound l, Forall (fun i => (0 <= i < bound)%Z) l ->
                 forallb (index_in_bounds bound) l = true).
  { intros bound l Hl. apply forallb_forall. rewrite Forall_forall in Hl.
    intros i Hi. specialize (Hl i Hi). unfold index_in_bounds.
    apply andb_true_iff. split; [apply Z.leb_le | apply Z.ltb_lt]; lia. }
  rewrite (Hb _ _ Hr), (Hb _ _ Hc). simpl. eexists; reflexivity.
Qed.

(** ** The normalized frame *)

Lemma get_interaction_users raw :
  map userId (get_interaction raw) = codes (map raw_user raw).
Proof.
  unfold get_interaction, codes. rewrite !map_map. reflexivity.
Qed.

Lemma get_interaction_items raw :
  map itemId (get_interaction raw) = codes (map raw_item raw).
Proof.
  unfold get_interaction, codes. rewrite !map_map. reflexivity.
Qed.

Lemma get_interaction_values raw :
  map interaction (get_interaction raw) = map raw_interaction raw.
Proof.
  unfold get_interaction. rewrite !map_map. reflexivity.
Qed.

Lemma codes_nonneg values : Forall (fun c => (0 <= c)%Z) (codes values).
Proof.
  pose proof (codes_coded values) as H. unfold coded_by in H.
  induction H as [|x c l l' [Hc _] _ IH]; constructor; assumption.
Qed.

(** The dimensions bound every code of the frame. *)
Lemma frame_codes_in_bounds raw mu mi :
  column_max (map userId (get_interaction raw)) = IntN mu ->
  column_max (map itemId (get_interaction raw)) = IntN mi ->
  forall r, In r (get_interaction raw) ->
    (0 <= userId r < mu + 1)%Z /\ (0 <= itemId r < mi + 1)%Z.
Proof.
  intros Hu Hi r Hr.
  apply column_max_bound in Hu. apply column_max_bound in Hi.
  pose proof (codes_nonneg (map raw_user raw)) as Hu0.
  pose proof (codes_nonneg (map raw_item raw)) as Hi0.
  rewrite <- get_interaction_users in Hu0.
  rewrite <- get_interaction_items in Hi0.
  rewrite Forall_forall in Hu, Hi, Hu0, Hi0.
  pose proof (in_map userId _ _ Hr) as Hru.
  pose proof (in_map itemId _ _ Hr) as Hri.
  specialize (Hu _ Hru). specialize (Hu0 _ Hru).
  specialize (Hi _ Hri). specialize (Hi0 _ Hri). lia.
Qed.

(** ** The constructor *)

(** The dimensions are integers exactly for a frame that has a row and
    an integer interaction column. *)
Lemma dimensions_int df a b :
  dimensions df = (IntN a, IntN b) ->
  df <> [] /\ float_column (map interaction df) = false /\
  column_max (map userId df) = IntN (a - 1)%Z /\
  column_max (map itemId df) = IntN (b - 1)%Z.
Proof.
  unfold dimensions. destruct df as [|r df]; [discriminate|].
  destruct (float_column (map interaction (r :: df))).
  - simpl. discriminate.
  - simpl. intros H. inversion H; subst.
    split; [discriminate|]. split; [reflexivity|].
    split; f_equal; lia.
Qed.

Lemma dimensions_of_int_frame df :
  df <> [] -> float_column (map interaction df) = false ->
  exists mu mi,
    column_max (map userId df) = IntN mu /\
    column_max (map itemId df) = IntN mi /\
    dimensions df = (IntN (mu + 1)%Z, IntN (mi + 1)%Z).
Proof.
  intros Hne Hint. unfold dimensions. rewrite Hint.
  destruct df as [|r df]; [congruence|]. simpl.
  eexists. eexists. repeat split.
Qed.

Lemma dimensions_float df :
  df = [] \/ float_column (map interaction df) = true ->
  exists x n, dimensions df = (FloatN x, n).
Proof.
  unfold dimensions. intros [->|Hfloat].
  - simpl. eexists. eexists. reflexivity.
  - rewrite Hfloat. destruct df as [|r df]; simpl.
    + eexists. eexists. reflexivity.
    + eexists. eexists. reflexivity.
Qed.

Lemma init_ok tts raw ts rs self :
  init tts raw ts rs = Ok self ->
  df_interaction self = get_interaction raw /\
  column_max (map userId (get_interaction raw)) = IntN (n_users self - 1)%Z /\
  column_max (map itemId (get_interaction raw)) = IntN (n_items self - 1)%Z /\
  exists train test,
    split_rows tts (get_interaction raw) ts rs = Ok (train, test) /\
    new_coo_matrix (map interaction train) (map userId train)
      (map itemId train) (IntN (n_users self), IntN (n_items self))
      = Ok (train_mat self) /\
    new_coo_matrix (map interaction test) (map userId test)
      (map itemId test) (IntN (n_users self), IntN (n_items self))
      = Ok (test_mat self).
Proof.
  unfold init. intros H.
  destruct (dimensions (get_interaction raw)) as [nu ni] eqn:Hdim.
  apply bind_ok in H. destruct H as ([trm tem] & Hproc & H).
  destruct nu as [nu|x]; [|discriminate].
  destruct ni as [ni|y]; [|discriminate].
  inversion H; subst; clear H. simpl.
  destruct (dimensions_int _ _ _ Hdim) as (_ & _ & Hmu & Hmi).
  unfold process_interaction in Hproc.
  apply bind_ok in Hproc. destruct Hproc as ([train test] & Hsplit & Hproc).
  apply bind_ok in Hproc. destruct Hproc as (trm' & Htrain & Hproc).
  apply bind_ok in Hproc. destruct Hproc as (tem' & Htest & Hproc).
  inversion Hproc; subst; clear Hproc.
  split; [reflexivity|]. split; [exact Hmu|]. split; [exact Hmi|].
  exists train, test. auto.
Qed.

(** A recommender exists only over a frame with a row and an integer
    interaction column. *)
Lemma init_int_column tts raw ts rs self :
  init tts raw ts rs = Ok self ->
  raw <> [] /\ float_column (map raw_interaction raw) = false.
Proof.
  unfold init. intros H.
  destruct (dimensions (get_interaction raw)) as [nu ni] eqn:Hdim.
  apply bind_ok in H. destruct H as ([trm tem] & _ & H).
  destruct nu as [nu|x]; [|discriminate].
  destruct ni as [ni|y]; [|discriminate].
  destruct (dimensions_int _ _ _ Hdim) as (Hne & Hint & _).
  rewrite get_interaction_values in Hint.
  split; [|exact Hint]. intros ->. apply Hne. reflexivity.
Qed.

Lemma new_coo_matrix_bounds values rows cols a b m :
  new_coo_matrix values rows cols (IntN a, IntN b) = Ok m ->
  Forall (fun i => (0 <= i < a)%Z) (row m) /\
  Forall (fun i => (0 <= i < b)%Z) (col m).
Proof.
  unfold new_coo_matrix.
  destruct (forallb (index_in_bounds a) rows) eqn:Hr;
    destruct (forallb (index_in_bounds b) cols) eqn:Hc; simpl;
    try discriminate.
  intros H. inversion H; subst. simpl.
  assert (Hb : forall bound l, forallb (index_in_bounds bound) l = true ->
                 Forall (fun i => (0 <= i < bound)%Z) l).
  { intros bound l Hl. apply Forall_forall. intros i Hi.
    rewrite forallb_forall in Hl. specialize (Hl i Hi).
    unfold index_in_bounds in Hl. apply andb_true_iff in Hl.
    destruct Hl as [H1 H2]. apply Z.leb_le in H1. apply Z.ltb_lt in H2. lia. }
  split; apply Hb; assumption.
Qed.

(** An exception of the split is the exception of the constructor. *)
Lemma init_split_raises tts raw ts rs e :
  split_rows tts (get_interaction raw) ts rs = Raise e ->
  init tts raw ts rs = Raise e.
Proof.
  intros Hsplit. unfold init.
  destruct (dimensions (get_interaction raw)) as [nu ni].
  unfold process_interaction. rewrite Hsplit. reflexivity.
Qed.

(** Without a row, or with a float interaction column, the dimensions
    are floats and the first matrix is refused. *)
Lemma init_float_dimensions tts raw ts rs parts :
  split_rows tts (get_interaction raw) ts rs = Ok parts ->
  raw = [] \/ float_column (map raw_interaction raw) = true ->
  init tts raw ts rs = Raise TypeError.
Proof.
  intros Hsplit Hfloat. unfold init.
  destruct (dimensions_float (get_interaction raw)) as (x & n & Hdim).
  { destruct Hfloat as [->|Hfloat]; [left; reflexivity | right].
    rewrite get_interaction_values. exact Hfloat. }
  rewrite Hdim. unfold process_interaction. rewrite Hsplit.
  destruct parts as [train test]. reflexivity.
Qed.

(** With a row, an integer interaction column and the rows split into
    rows of the frame, the constructor succeeds. *)
Lemma init_builds tts raw ts rs train test :
  raw <> [] -> float_column (map raw_interaction raw) = false ->
  split_rows tts (get_interaction raw) ts rs = Ok (train, test) ->
  incl train (get_interaction raw) -> incl test (get_interaction raw) ->
  exists self, init tts raw ts rs = Ok self.
Proof.
  intros Hne Hint Hsplit Htrain Htest.
  assert (Hdf : get_interaction raw <> []).
  { destruct raw; [congruence | discriminate]. }
  rewrite <- get_interaction_values in Hint.
  destruct (dimensions_of_int_frame _ Hdf Hint) as (mu & mi & Hmu & Hmi & Hdim).
  assert (Hb : forall part, incl part (get_interaction raw) ->
            Forall (fun i => (0 <= i < mu + 1)%Z) (map userId part) /\
            Forall (fun i => (0 <= i < mi + 1)%Z) (map itemId part)).
  { intros part Hpart. split; apply Forall_map, Forall_forall; intros r Hr;
      apply (frame_codes_in_bounds raw mu mi Hmu Hmi r); apply Hpart; exact Hr. }
  destruct (Hb train Htrain) as [Htu Hti].
  destruct (Hb test Htest) as [Hsu Hsi].
  destruct (new_coo_matrix_total (map interaction train) (map userId train)
              (map itemId train) (mu + 1)%Z (mi + 1)%Z Htu Hti) as [m1 Hm1].
  destruct (new_coo_matrix_total (map interaction test) (map userId test)
              (map itemId test) (mu + 1)%Z (mi + 1)%Z Hsu Hsi) as [m2 Hm2].
  unfold init. rewrite Hdim. unfold process_interaction.
  rewrite Hsplit. cbn [bind]. rewrite Hm1. cbn [bind]. rewrite Hm2. cbn [bind].
  eexists. reflexivity.
Qed.

Lemma column_max_plus_one column n :
  column_max column = IntN (n - 1)%Z -> max_plus_one column n.
Proof.
  intros H. split; [apply column_max_in; exact H|].
  apply column_max_bound in H. eapply Forall_impl; [|exact H].
  simpl. intros; lia.
Qed.

Lemma split_rows_incl tts df ts rs train test :
  splits_rows tts ->
  split_rows tts df ts rs = Ok (train, test) ->
  Permutation (train ++ test) df.
Proof.
  intros Htts. unfold split_rows.
  destruct (negb rs && match 1 ?= ts with Lt => true | _ => false end).
  - intros H. inversion H; subst.
    eapply Permutation_trans; [apply Permutation_app_comm|].
    rewrite firstn_skipn. apply Permutation_refl.
  - apply Htts.
Qed.

Lemma list_eq_dec_nil {A} (l : list A) : {l = []} + {l <> []}.
Proof. destruct l; [left; reflexivity | right; discriminate]. Qed.

Lemma bind_raise {A B} (c : result A) (f : A -> result B) e :
  bind c f = Raise e ->
  c = Raise e \/ exists a, c = Ok a /\ f a = Raise e.
Proof.
  destruct c as [a|e']; simpl; intros H.
  - right. exists a. auto.
  - left. congruence.
Qed.

(** ** Masking the seen items *)

Lemma seen_items_spec self u i :
  In i (seen_items self u) <-> interacted (df_interaction self) u i.
Proof.
  unfold seen_items, interacted. rewrite in_map_iff. split.
  - intros (r & Hi & Hr). apply filter_In in Hr. destruct Hr as [Hr Hu].
    exists r. apply Z.eqb_eq in Hu. auto.
  - intros (r & Hr & Hu & Hi). exists r. split; [exact Hi|].
    apply filter_In. split; [exact Hr | apply Z.eqb_eq; exact Hu].
Qed.

Lemma existsb_eqb_in x l : existsb (Z.eqb x) l = true <-> In x l.
Proof.
  rewrite existsb_exists. split.
  - intros (y & Hy & E). apply Z.eqb_eq in E. subst. exact Hy.
  - intros H. exists x. split; [exact H | apply Z.eqb_refl].
Qed.

Lemma in_to_nat j l :
  Forall (fun i => (0 <= i)%Z) l ->
  In j (map Z.to_nat l) <-> In (Z.of_nat j) l.
Proof.
  intros Hl. rewrite in_map_iff. rewrite Forall_forall in Hl. split.
  - intros (x & <- & Hx). rewrite Z2Nat.id by (apply Hl; exact Hx). exact Hx.
  - intros H. exists (Z.of_nat j). split; [apply Nat2Z.id | exact H].
Qed.

Lemma predict_unseen_masks tts predict raw ts rs self u p :
  init tts raw ts rs = Ok self ->
  predict_for_userId predict self u = Ok p ->
  Z.of_nat (length p) = n_items self ->
  exists p',
    predict_for_userId_unseen predict self u = Ok p' /\
    length p' = length p /\
    forall i, (i < length p)%nat ->
      nth i p' NaN =
      if existsb (Z.eqb (Z.of_nat i)) (seen_items self u) then NInf
      else nth i p NaN.
Proof.
  intros Hinit Hp Hlen.
  destruct (init_ok _ _ _ _ _ Hinit) as (Hdf & Hu & Hi & _).
  assert (Hseen : Forall (fun i => (0 <= i < Z.of_nat (length p))%Z)
                         (seen_items self u)).
  { apply Forall_forall. intros i Hin. apply seen_items_spec in Hin.
    destruct Hin as (r & Hr & _ & <-). rewrite Hdf in Hr.
    destruct (frame_codes_in_bounds raw _ _ Hu Hi r Hr) as [_ Hb]. lia. }
  unfold predict_for_userId_unseen. rewrite Hp. simpl bind.
  rewrite (assign_items_in_bounds NInf _ p Hseen).
  eexists. split; [reflexivity|]. split; [apply fold_set_at_length|].
  intros i Hi'. rewrite nth_fold_set_at by exact Hi'.
  assert (Hnn : Forall (fun i => (0 <= i)%Z) (seen_items self u)).
  { eapply Forall_impl; [|exact Hseen]. simpl. intros; lia. }
  destruct (in_dec Nat.eq_dec i (map Z.to_nat (seen_items self u))) as [Hin|Hin];
    destruct (existsb (Z.eqb (Z.of_nat i)) (seen_items self u)) eqn:E;
    try reflexivity; exfalso.
  - apply (in_to_nat i _ Hnn) in Hin. apply existsb_eqb_in in Hin. congruence.
  - apply existsb_eqb_in in E. apply (in_to_nat i _ Hnn) in E. contradiction.
Qed.

(** ** Building the result dictionary *)

Lemma getitem_in_range p key :
  (key < length p)%nat -> getitem p key = Ok (nth key p NaN).
Proof.
  intros H. unfold getitem. rewrite (nth_error_nth' p NaN H). reflexivity.
Qed.

Lemma dict_of_keys_distinct p : forall keys d,
  NoDup keys ->
  Forall (fun k => (k < length p)%nat) keys ->
  (forall k, In k keys -> ~ In k (map fst d)) ->
  dict_of_keys p keys d = Ok (d ++ map (fun k => (k, nth k p NaN)) keys).
Proof.
  induction keys as [|key rest IH]; intros d Hnd Hb Hfresh; simpl.
  - rewrite app_nil_r. reflexivity.
  - inversion Hnd as [|? ? Hnot Hnd']; subst.
    inversion Hb as [|? ? Hkey Hb']; subst.
    rewrite (getitem_in_range p key Hkey). simpl bind.
    rewrite dict_set_fresh by (apply Hfresh; left; reflexivity).
    rewrite IH; [rewrite <- app_assoc; reflexivity | exact Hnd' | exact Hb' |].
    intros k Hk. rewrite map_app, in_app_iff. simpl.
    intros [Hc|[Hc|[]]].
    + apply (Hfresh k); [right; exact Hk | exact Hc].
    + subst. contradiction.
Qed.

Lemma dict_of_keys_total p : forall keys d,
  Forall (fun k => (k < length p)%nat) keys ->
  exists d', dict_of_keys p keys d = Ok d' /\
    forall k v, In (k, v) d' -> In (k, v) d \/ nth_error p k = Some v.
Proof.
  induction keys as [|key rest IH]; intros d Hb; simpl.
  - exists d. split; [reflexivity | auto].
  - inversion Hb as [|? ? Hkey Hb']; subst.
    rewrite (getitem_in_range p key Hkey). simpl bind.
    destruct (IH (dict_set key (nth key p NaN) d) Hb') as (d' & Hd' & Hin).
    exists d'. split; [exact Hd'|]. intros k v Hkv.
    destruct (Hin k v Hkv) as [H|H]; [|right; exact H].
    apply dict_set_in in H. destruct H as [H|H]; [|left; exact H].
    inversion H; subst. right. apply nth_error_nth'. exact Hkey.
Qed.

Lemma np_argpartition_ok argpartition a kth :
  argpartition_spec argpartition ->
  (- Z.of_nat (length a) <= kth < Z.of_nat (length a))%Z ->
  exists part, np_argpartition argpartition a kth = Ok part /\
               Permutation part (seq 0 (length a)).
Proof.
  intros Hspec Hk. unfold np_argpartition.
  replace ((- Z.of_nat (length a) <=? kth) && (kth <? Z.of_nat (length a)))%Z
    with true
    by (symmetry; apply andb_true_iff; split;
        [apply Z.leb_le | apply Z.ltb_lt]; lia).
  eexists. split; [reflexivity|].
  apply Hspec. destruct (Z.ltb_spec kth 0); lia.
Qed.

Lemma np_argpartition_out_of_bounds argpartition a kth :
  ~ (- Z.of_nat (length a) <= kth < Z.of_nat (length a))%Z ->
  np_argpartition argpartition a kth = Raise ValueError.
Proof.
  intros Hk. unfold np_argpartition.
  destruct (Z.leb_spec (- Z.of_nat (length a)) kth);
    destruct (Z.ltb_spec kth (Z.of_nat (length a))); simpl;
    try reflexivity; lia.
Qed.

End RecommenderFacts.

(* ================================================================== *)
(** * The sample collaborators *)

Module SampleFacts.
Import Arr ArrFacts Lib LibFacts Recommender RecommenderFacts Sample.

Lemma last_row_split_splits : splits_rows last_row_split.
Proof.
  intros df ts train test. unfold last_row_split.
  destruct df as [|r1 [|r2 df]]; try discriminate.
  intros H. injection H as <- <-.
  set (l := r1 :: r2 :: df).
  change (Permutation
            (removelast l ++ [last l (mk_row 0 0 (int64_of 0 eq_refl))]) l).
  rewrite <- app_removelast_last by discriminate.
  apply Permutation_refl.
Qed.

(** ** The sorting [argpartition] meets numpy's promise *)

Lemma sort_leb_total x y : sort_leb x y = false -> sort_leb y x = true.
Proof. order_cases. Qed.

Lemma sort_leb_refl x : sort_leb x x = true.
Proof. order_cases. Qed.

Lemma sort_leb_trans x y z :
  sort_leb x y = true -> sort_leb y z = true -> sort_leb x z = true.
Proof. order_cases. Qed.

Lemma insert_index_perm a i p : Permutation (insert_index a i p) (i :: p).
Proof.
  induction p as [|j t IH]; simpl; [apply Permutation_refl|].
  destruct (sort_leb (nth i a NaN) (nth j a NaN)); [apply Permutation_refl|].
  apply Permutation_trans with (j :: i :: t);
    [apply perm_skip; exact IH | apply perm_swap].
Qed.

Lemma insert_index_sorted a i p :
  StronglySorted (key_leb a) p -> StronglySorted (key_leb a) (insert_index a i p).
Proof.
  induction 1 as [|j t Ht IH Hj]; simpl.
  - constructor; constructor.
  - destruct (sort_leb (nth i a NaN) (nth j a NaN)) eqn:E.
    + constructor; [constructor; assumption|].
      constructor; [exact E|].
      eapply Forall_impl; [|exact Hj]. intros x Hx.
      exact (sort_leb_trans _ _ _ E Hx).
    + constructor; [exact IH|].
      apply (Permutation_Forall (Permutation_sym (insert_index_perm a i t))).
      constructor; [apply sort_leb_total; exact E | exact Hj].
Qed.

Lemma argsort_perm a : Permutation (argsort a) (seq 0 (length a)).
Proof.
  unfold argsort. induction (seq 0 (length a)) as [|i t IH]; simpl.
  - constructor.
  - eapply Permutation_trans; [apply insert_index_perm|].
    apply perm_skip. exact IH.
Qed.

Lemma argsort_sorted a : StronglySorted (key_leb a) (argsort a).
Proof.
  unfold argsort. induction (seq 0 (length a)) as [|i t IH]; simpl.
  - constructor.
  - apply insert_index_sorted. exact IH.
Qed.

Lemma sorted_nth a p : StronglySorted (key_leb a) p ->
  forall i j, (i <= j)%nat -> (j < length p)%nat ->
    key_leb a (nth i p 0%nat) (nth j p 0%nat).
Proof.
  induction 1 as [|x t Ht IH Hx]; intros i j Hij Hj; simpl in Hj; [lia|].
  destruct i as [|i], j as [|j]; simpl; try lia.
  - apply sort_leb_refl.
  - rewrite Forall_forall in Hx. apply Hx. apply nth_In. lia.
  - apply IH; lia.
Qed.

Lemma sorting_argpartition_spec : argpartition_spec sorting_argpartition.
Proof.
  intros a kth Hkth. unfold sorting_argpartition. split.
  - apply argsort_perm.
  - intros i j Hij Hj.
    assert (Hlen : length (argsort a) = length a).
    { rewrite (Permutation_length (argsort_perm a)). apply length_seq. }
    split; apply (sorted_nth a (argsort a) (argsort_sorted a)); lia.
Qed.

End SampleFacts.

(* ================================================================== *)
(** * Properties of the recommender *)

Module RecommenderSpec.
Import Arr ArrFacts Lib LibFacts Recommender RecommenderFacts Sample SampleFacts.

(** C2 (as the code behaves).  The normalization replaces the raw user
    ids, and separately the raw item ids, by dense zero-based codes in
    increasing order of the raw ids: the code of an id is its position
    among the sorted distinct ids of its column; the interaction column is
    unchanged. *)
Theorem get_interaction_codes_sorted raw :
  sorted_codes (map raw_user raw) (map userId (get_interaction raw)) /\
  sorted_codes (map raw_item raw) (map itemId (get_interaction raw)) /\
  map interaction (get_interaction raw) = map raw_interaction raw.
Proof.
  rewrite get_interaction_users, get_interaction_items.
  split; [apply codes_sorted|]. split; [apply codes_sorted|].
  apply get_interaction_values.
Qed.

(** C2 as stated fails: in [raw_table] the first raw user id met, 50,
    gets code 1, the second, 30, code 0. *)
Lemma get_interaction_not_first_seen :
  map userId (get_interaction raw_table) = [1; 0; 1]%Z /\
  first_seen (map raw_user raw_table) = [50; 30]%Z /\
  ~ first_seen_codes (map raw_user raw_table)
                     (map userId (get_interaction raw_table)).
Proof.
  split; [reflexivity|]. split; [reflexivity|].
  intros H. vm_compute in H.
  inversion H as [|? ? ? ? [_ Hc] _]. discriminate Hc.
Qed.

(** C7.  For every table and every split policy, the train and test
    matrices both have the shape [(n_users, n_items)], each dimension being
    one plus the maximum code of its column over the whole normalized
    frame, so that every stored index of either matrix is within the
    shape, whichever part the rows carrying a code fall in.  The
    matrices are built unless the splitter raises (the contiguous policy
    never calls it) or the dimensions are floats (a table without rows,
    or with a float interaction column), which [coo_matrix] refuses with
    TypeError. *)
Theorem train_test_same_shape tts raw ts rs :
  splits_rows tts ->
  match init tts raw ts rs with
  | Ok self =>
      shape (train_mat self) = (n_users self, n_items self) /\
      shape (test_mat self) = (n_users self, n_items self) /\
      max_plus_one (map userId (get_interaction raw)) (n_users self) /\
      max_plus_one (map itemId (get_interaction raw)) (n_items self) /\
      Forall (fun i => (0 <= i < n_users self)%Z)
             (row (train_mat self) ++ row (test_mat self)) /\
      Forall (fun i => (0 <= i < n_items self)%Z)
             (col (train_mat self) ++ col (test_mat self))
  | Raise e =>
      (split_rows tts (get_interaction raw) ts rs = Raise e /\
       (rs = true \/ ts <= 1)) \/
      (e = TypeError /\
       (raw = [] \/ float_column (map raw_interaction raw) = true))
  end.
Proof.
  intros Htts. destruct (init tts raw ts rs) as [self|e] eqn:E.
  - destruct (init_ok _ _ _ _ _ E)
      as (_ & Hu & Hi & train & test & _ & Htr & Hte).
    destruct (new_coo_matrix_bounds _ _ _ _ _ _ Htr) as [Hr1 Hc1].
    destruct (new_coo_matrix_bounds _ _ _ _ _ _ Hte) as [Hr2 Hc2].
    apply new_coo_matrix_ok in Htr. apply new_coo_matrix_ok in Hte.
    destruct Htr as [Htr _]. destruct Hte as [Hte _].
    split; [exact Htr|]. split; [exact Hte|].
    split; [apply column_max_plus_one; exact Hu|].
    split; [apply column_max_plus_one; exact Hi|].
    split; apply Forall_app; split; assumption.
  - destruct (split_rows tts (get_interaction raw) ts rs)
      as [[train test]|e'] eqn:Hsplit.
    + right.
      destruct (list_eq_dec_nil raw) as [Hnil|Hne].
      * rewrite (init_float_dimensions _ _ _ _ _ Hsplit (or_introl Hnil)) in E.
        inversion E. auto.
      * destruct (float_column (map raw_interaction raw)) eqn:Hfloat.
        -- rewrite (init_float_dimensions _ _ _ _ _ Hsplit (or_intror Hfloat))
             in E.
           inversion E. auto.
        -- exfalso.
           pose proof (split_rows_incl _ _ _ _ _ _ Htts Hsplit) as Hperm.
           destruct (init_builds tts raw ts rs train test Hne Hfloat Hsplit)
             as [self Hself].
           ++ intros r Hr. apply (Permutation_in r Hperm).
              apply in_or_app. left. exact Hr.
           ++ intros r Hr. apply (Permutation_in r Hperm).
              apply in_or_app. right. exact Hr.
           ++ congruence.
    + left. rewrite (init_split_raises _ _ _ _ _ Hsplit) in E.
      inversion E; subst. split; [reflexivity|].
      unfold split_rows in Hsplit. destruct rs; [left; reflexivity|].
      simpl in Hsplit.
      destruct (Qcompare_spec 1 ts); try discriminate; right; lra.
Qed.

(** An instance in which user code 0 and item code 2 occur in the test
    part only: the first two rows are the test part. *)
Lemma train_test_same_shape_witness :
  match init last_row_split raw_table 2 false with
  | Ok self =>
      shape (train_mat self) = (n_users self, n_items self) /\
      shape (test_mat self) = (n_users self, n_items self) /\
      max_plus_one (map userId (get_interaction raw_table)) (n_users self) /\
      max_plus_one (map itemId (get_interaction raw_table)) (n_items self) /\
      Forall (fun i => (0 <= i < n_users self)%Z)
             (row (train_mat self) ++ row (test_mat self)) /\
      Forall (fun i => (0 <= i < n_items self)%Z)
             (col (train_mat self) ++ col (test_mat self))
  | Raise e =>
      (split_rows last_row_split (get_interaction raw_table) 2 false
         = Raise e /\
       (false = true \/ 2 <= 1)) \/
      (e = TypeError /\
       (raw_table = [] \/
        float_column (map raw_interaction raw_table) = true))
  end.
Proof.
  apply train_test_same_shape. exact last_row_split_splits.
Defined.

(** C9 (what the code does on the failing inputs).  With a float
    interaction column no matrix is built at all: the dimensions are
    floats, and the constructor raises the TypeError of [coo_matrix]
    before a value is cast (or the exception of the splitter, when that
    raises first). *)
Theorem float_interactions_are_refused tts raw ts rs :
  float_column (map raw_interaction raw) = true ->
  match split_rows tts (get_interaction raw) ts rs with
  | Ok _ => init tts raw ts rs = Raise TypeError
  | Raise e => init tts raw ts rs = Raise e
  end.
Proof.
  intros Hfloat.
  destruct (split_rows tts (get_interaction raw) ts rs) as [parts|e] eqn:Hsplit.
  - apply (init_float_dimensions _ _ _ _ _ Hsplit). right. exact Hfloat.
  - apply init_split_raises. exact Hsplit.
Qed.

Lemma float_interactions_are_refused_witness :
  init last_row_split float_table 2 false = Raise TypeError.
Proof.
  exact (float_interactions_are_refused last_row_split float_table 2 false
           eq_refl).
Defined.

(** C8.  After [predict_for_userId_unseen(u)], every item code that has a
    row with [u] in the whole normalized frame (the frame before the
    split) has score -inf, and every other item code keeps the score
    returned by [predict]. *)
Theorem unseen_masking tts predict raw ts rs self u p :
  init tts raw ts rs = Ok self ->
  predict_for_userId predict self u = Ok p ->
  Z.of_nat (length p) = n_items self ->
  exists p',
    predict_for_userId_unseen predict self u = Ok p' /\
    length p' = length p /\
    forall i, (i < length p)%nat ->
      (interacted (get_interaction raw) u (Z.of_nat i) ->
         nth i p' NaN = NInf) /\
      (~ interacted (get_interaction raw) u (Z.of_nat i) ->
         nth i p' NaN = nth i p NaN).
Proof.
  intros Hinit Hp Hlen.
  destruct (predict_unseen_masks _ _ _ _ _ _ _ _ Hinit Hp Hlen)
    as (p' & Hp' & Hlen' & Hnth).
  destruct (init_ok _ _ _ _ _ Hinit) as (Hdf & _).
  exists p'. split; [exact Hp'|]. split; [exact Hlen'|].
  intros i Hi. rewrite (Hnth i Hi). rewrite <- Hdf.
  destruct (existsb (Z.eqb (Z.of_nat i)) (seen_items self u)) eqn:E; split.
  - reflexivity.
  - intros Hnot. exfalso. apply Hnot. apply seen_items_spec.
    apply existsb_eqb_in. exact E.
  - intros Hint. apply seen_items_spec, existsb_eqb_in in Hint. congruence.
  - reflexivity.
Qed.

Lemma unseen_masking_witness :
  exists self,
    init last_row_split raw_table 2 false = Ok self /\
    exists p',
      predict_for_userId_unseen item_code_scorer self 1 = Ok p' /\
      length p' = 3%nat /\
      forall i, (i < 3)%nat ->
        (interacted (get_interaction raw_table) 1 (Z.of_nat i) ->
           nth i p' NaN = NInf) /\
        (~ interacted (get_interaction raw_table) 1 (Z.of_nat i) ->
           nth i p' NaN = nth i [Fin 0; Fin 1; Fin 2] NaN).
Proof.
  eexists. split; [vm_compute; reflexivity|].
  apply (unseen_masking last_row_split item_code_scorer raw_table 2 false
           _ 1%Z [Fin 0; Fin 1; Fin 2]); vm_compute; reflexivity.
Defined.

(** C10.  When fewer than [top_n] item codes are unseen by user [u] and
    [top_n] is below the number of items, the mapping returned by
    [predict_top_n_unseen] has [top_n] entries and one of them is an item
    code [u] has interacted with, carrying the score -inf. *)
Theorem top_n_contains_seen_items
        tts predict argpartition raw ts rs self u top_n p :
  argpartition_spec argpartition ->
  init tts raw ts rs = Ok self ->
  predict_for_userId predict self u = Ok p ->
  Z.of_nat (length p) = n_items self ->
  (Z.of_nat (length (unseen_codes (seen_items self u) (length p))) < top_n)%Z ->
  (top_n < n_items self)%Z ->
  exists d,
    predict_top_n_unseen predict argpartition self u top_n = Ok d /\
    Z.of_nat (length d) = top_n /\
    exists key,
      In (key, NInf) d /\
      interacted (get_interaction raw) u (Z.of_nat key).
Proof.
  intros Hspec Hinit Hp Hlen Hfew Htop.
  destruct (predict_unseen_masks _ _ _ _ _ _ _ _ Hinit Hp Hlen)
    as (p' & Hp' & Hlen' & Hnth).
  destruct (init_ok _ _ _ _ _ Hinit) as (Hdf & _).
  destruct (np_argpartition_ok argpartition (map xneg p') top_n Hspec)
    as (part & Hpart & Hperm); [rewrite length_map; lia|].
  rewrite length_map, Hlen' in Hperm.
  set (keys := slice_to top_n part).
  assert (Hkeys : keys = firstn (Z.to_nat top_n) part).
  { unfold keys, slice_to. destruct (Z.ltb_spec top_n 0); [lia | reflexivity]. }
  assert (Hpartlen : length part = length p).
  { rewrite (Permutation_length Hperm). apply length_seq. }
  assert (Hklen : length keys = Z.to_nat top_n).
  { rewrite Hkeys, length_firstn. lia. }
  assert (Hknd : NoDup keys).
  { assert (Hnd : NoDup part)
      by (apply (Permutation_NoDup (Permutation_sym Hperm)), seq_NoDup).
    rewrite <- (firstn_skipn (Z.to_nat top_n) part) in Hnd.
    rewrite Hkeys. exact (NoDup_app_remove_r _ _ Hnd). }
  assert (Hkb : Forall (fun k => (k < length p)%nat) keys).
  { apply Forall_forall. intros k Hk. apply slice_to_incl in Hk.
    apply (Permutation_in k Hperm) in Hk. apply in_seq in Hk. lia. }
  exists (map (fun k => (k, nth k p' NaN)) keys).
  split; [|split].
  - unfold predict_top_n_unseen. rewrite Hp'. simpl bind.
    rewrite Hpart. simpl bind. fold keys.
    rewrite dict_of_keys_distinct; [reflexivity | exact Hknd | | intros k _ []].
    rewrite Hlen'. exact Hkb.
  - rewrite length_map, Hklen. lia.
  - destruct (existsb (fun k => existsb (Z.eqb (Z.of_nat k)) (seen_items self u))
                      keys) eqn:E.
    + apply existsb_exists in E. destruct E as (key & Hkey & Hseen).
      exists key. split.
      * apply in_map_iff. exists key. split; [|exact Hkey].
        rewrite Forall_forall in Hkb. rewrite (Hnth key (Hkb key Hkey)), Hseen.
        reflexivity.
      * rewrite <- Hdf. apply seen_items_spec, existsb_eqb_in. exact Hseen.
    + exfalso.
      assert (Hincl : incl keys (unseen_codes (seen_items self u) (length p))).
      { intros k Hk. unfold unseen_codes. apply filter_In. split.
        - rewrite Forall_forall in Hkb. apply in_seq. specialize (Hkb k Hk). lia.
        - destruct (existsb (Z.eqb (Z.of_nat k)) (seen_items self u)) eqn:Ek;
            [|reflexivity].
          assert (existsb (fun k => existsb (Z.eqb (Z.of_nat k))
                                      (seen_items self u)) keys = true)
            by (apply existsb_exists; exists k; auto).
          congruence. }
      pose proof (NoDup_incl_length Hknd Hincl). lia.
Qed.

Lemma top_n_contains_seen_items_witness :
  exists self,
    init last_row_split raw_table 2 false = Ok self /\
    exists d,
      predict_top_n_unseen item_code_scorer sorting_argpartition self 1 2
        = Ok d /\
      Z.of_nat (length d) = 2%Z /\
      exists key,
        In (key, NInf) d /\
        interacted (get_interaction raw_table) 1 (Z.of_nat key).
Proof.
  eexists. split; [vm_compute; reflexivity|].
  apply (top_n_contains_seen_items last_row_split item_code_scorer
           sorting_argpartition raw_table 2 false _ 1%Z 2%Z
           [Fin 0; Fin 1; Fin 2]).
  - exact sorting_argpartition_spec.
  - vm_compute. reflexivity.
  - vm_compute. reflexivity.
  - vm_compute. reflexivity.
  - vm_compute. reflexivity.
  - vm_compute. reflexivity.
Defined.

(** C3 (as the code behaves).  For [user_id > n_users - 1] no row of the
    frame matches, nothing is masked, and [predict_top_n_unseen] makes no
    check of its own on the user: an exception of the scorer is passed
    on; with a score vector and [top_n] within [-len, len) the call
    returns a mapping of raw scores; otherwise [np.argpartition] raises
    ValueError. *)
Theorem out_of_range_user_is_not_checked
        tts predict argpartition raw ts rs self u top_n :
  argpartition_spec argpartition ->
  init tts raw ts rs = Ok self ->
  (n_users self - 1 < u)%Z ->
  seen_items self u = [] /\
  match predict_for_userId predict self u with
  | Raise e =>
      predict_top_n_unseen predict argpartition self u top_n = Raise e
  | Ok p =>
      if ((- Z.of_nat (length p) <=? top_n)
          && (top_n <? Z.of_nat (length p)))%Z
      then exists d,
             predict_top_n_unseen predict argpartition self u top_n = Ok d /\
             forall key v, In (key, v) d -> nth_error p key = Some v
      else predict_top_n_unseen predict argpartition self u top_n
           = Raise ValueError
  end.
Proof.
  intros Hspec Hinit Hu.
  destruct (init_ok _ _ _ _ _ Hinit) as (Hdf & Hmu & Hmi & _).
  assert (Hseen : seen_items self u = []).
  { unfold seen_items. rewrite Hdf.
    assert (Hnone : forall l, incl l (get_interaction raw) ->
              filter (fun r => (userId r =? u)%Z) l = []).
    { induction l as [|r l IH]; intros Hincl; simpl; [reflexivity|].
      destruct (frame_codes_in_bounds raw _ _ Hmu Hmi r
                  (Hincl r (or_introl eq_refl))) as [Hr _].
      destruct (Z.eqb_spec (userId r) u); [lia|].
      apply IH. intros x Hx. apply Hincl. right. exact Hx. }
    rewrite (Hnone _ (incl_refl _)). reflexivity. }
  split; [exact Hseen|].
  unfold predict_top_n_unseen, predict_for_userId_unseen. rewrite Hseen.
  destruct (predict_for_userId predict self u) as [p|e]; [|reflexivity].
  simpl bind.
  destruct ((- Z.of_nat (length p) <=? top_n)
            && (top_n <? Z.of_nat (length p)))%Z eqn:E.
  - apply andb_true_iff in E. destruct E as [E1 E2].
    apply Z.leb_le in E1. apply Z.ltb_lt in E2.
    destruct (np_argpartition_ok argpartition (map xneg p) top_n Hspec)
      as (part & Hpart & Hperm); [rewrite length_map; lia|].
    rewrite Hpart. simpl bind. rewrite length_map in Hperm.
    destruct (dict_of_keys_total p (slice_to top_n part) []) as (d & Hd & Hin).
    + apply Forall_forall. intros k Hk. apply slice_to_incl in Hk.
      apply (Permutation_in k Hperm) in Hk. apply in_seq in Hk. lia.
    + exists d. split; [exact Hd|]. intros key v Hkv.
      destruct (Hin key v Hkv) as [[]|H]. exact H.
  - rewrite np_argpartition_out_of_bounds; [reflexivity|].
    rewrite length_map. intros [H1 H2].
    apply andb_false_iff in E. destruct E as [E|E];
      [apply Z.leb_gt in E | apply Z.ltb_ge in E]; lia.
Qed.

Lemma out_of_range_user_is_not_checked_witness :
  exists self,
    init last_row_split raw_table 2 false = Ok self /\
    seen_items self 7 = [] /\
    match predict_for_userId item_code_scorer self 7 with
    | Raise e =>
        predict_top_n_unseen item_code_scorer sorting_argpartition self 7 1
        = Raise e
    | Ok p =>
        if ((- Z.of_nat (length p) <=? 1) && (1 <? Z.of_nat (length p)))%Z
        then exists d,
               predict_top_n_unseen item_code_scorer sorting_argpartition
                                    self 7 1 = Ok d /\
               forall key v, In (key, v) d -> nth_error p key = Some v
        else predict_top_n_unseen item_code_scorer sorting_argpartition
                                  self 7 1 = Raise ValueError
    end.
Proof.
  eexists. split; [vm_compute; reflexivity|].
  apply (out_of_range_user_is_not_checked last_row_split item_code_scorer
           sorting_argpartition raw_table 2 false _ 7%Z 1%Z).
  - exact sorting_argpartition_spec.
  - vm_compute. reflexivity.
  - vm_compute. reflexivity.
Defined.

(** C3 as stated fails: user 7 is beyond [n_users - 1 = 1], and the call
    returns a mapping instead of raising InvalidUserError. *)
Lemma out_of_range_user_returns_mapping :
  exists self,
    init last_row_split raw_table 2 false = Ok self /\
    (n_users self - 1 < 7)%Z /\
    predict_top_n_unseen item_code_scorer sorting_argpartition self 7 1
      = Ok [(2%nat, Fin 2)] /\
    predict_top_n_unseen item_code_scorer sorting_argpartition self 7 1
      <> Raise InvalidUserError.
Proof.
  eexists. split; [vm_compute; reflexivity|].
  split; [vm_compute; reflexivity|].
  split; [vm_compute; reflexivity|].
  vm_compute. discriminate.
Qed.

End RecommenderSpec.


(* ================================================================== *)
(** * Further properties of [rerank] *)

Module RerankShape.
Import Arr ArrFacts MMR MMRFacts OrderFacts Picks RecommenderFacts.

(** ** The loop only appends *)

Lemma rerank_loop_appends lbd q : forall iters sim sel out,
  rerank_loop iters lbd q sim sel = Ok out ->
  exists picks,
    ravel out = ravel sel ++ picks /\ length picks = iters /\
    (iters = 0%nat -> out = sel) /\
    ((0 < iters)%nat -> out = Vector (ravel sel ++ picks)).
Proof.
  induction iters as [|iters IH]; intros sim sel out H.
  - simpl in H. inversion H; subst. exists []. rewrite app_nil_r.
    repeat split; auto. intros; lia.
  - simpl in H.
    apply bind_ok in H. destruct H as (scores & _ & H).
    apply bind_ok in H. destruct H as (pick & _ & H).
    apply IH in H. destruct H as (picks & Hravel & Hlen & Hzero & Hpos).
    simpl in Hravel. rewrite <- app_assoc in Hravel. simpl in Hravel.
    exists (pick :: picks). split; [exact Hravel|].
    split; [simpl; congruence|]. split; [intros; lia|]. intros _.
    destruct iters as [|iters'].
    + rewrite (Hzero eq_refl). destruct picks; [|discriminate]. reflexivity.
    + rewrite (Hpos ltac:(lia)). simpl. rewrite <- app_assoc. reflexivity.
Qed.

Lemma rerank_loop_prefix lbd q : forall i j sim sel out',
  rerank_loop (i + j) lbd q sim sel = Ok out' ->
  exists out,
    rerank_loop i lbd q sim sel = Ok out /\
    ravel out = firstn (length (ravel sel) + i) (ravel out').
Proof.
  induction i as [|i IH]; intros j sim sel out' H.
  - exists sel. split; [reflexivity|].
    destruct (rerank_loop_appends _ _ _ _ _ _ H) as (picks & Hravel & _).
    rewrite Hravel, Nat.add_0_r, firstn_app, Nat.sub_diag, firstn_all.
    simpl. rewrite app_nil_r. reflexivity.
  - simpl in H.
    apply bind_ok in H. destruct H as (scores & Hscores & H).
    apply bind_ok in H. destruct H as (pick & Hpick & H).
    apply IH in H. destruct H as (out & Hout & Hravel).
    exists out. simpl rerank_loop. rewrite Hscores. simpl. rewrite Hpick. simpl.
    split; [exact Hout|]. rewrite Hravel. simpl. rewrite length_app. simpl.
    f_equal. lia.
Qed.

Lemma selection_size_iters k n :
  (1 <= n)%nat ->
  selection_size k n = S (Z.to_nat (Z.min k (Z.of_nat n) - 1)).
Proof. unfold selection_size. lia. Qed.

(** X1.  Whatever the values of the inputs (nan and infinities
    included), when [rerank] returns, its output starts with
    [argmax(quality_scores)] and holds [max(1, min(k, n))] indices; it is
    a zero-dimensional array when [min(k, n) <= 1] and a one-dimensional
    one otherwise. *)
Theorem rerank_output_shape lbd quality sim k out :
  rerank lbd quality sim k = Ok out ->
  exists first picks,
    argmax quality = Ok first /\
    ravel out = first :: picks /\
    length (ravel out) = selection_size k (length quality) /\
    ((Z.min k (Z.of_nat (length quality)) <= 1)%Z -> out = Scalar first) /\
    ((1 < Z.min k (Z.of_nat (length quality)))%Z ->
       out = Vector (first :: picks)).
Proof.
  intros H. unfold rerank in H.
  apply bind_ok in H. destruct H as (first & Hfirst & H).
  assert (Hn : (1 <= length quality)%nat).
  { destruct quality; [discriminate | simpl; lia]. }
  destruct (rerank_loop_appends _ _ _ _ _ _ H)
    as (picks & Hravel & Hlen & Hzero & Hpos).
  exists first, picks. split; [exact Hfirst|]. split; [exact Hravel|].
  split; [|split].
  - rewrite Hravel, selection_size_iters by exact Hn. simpl. congruence.
  - intros Hk. apply Hzero. lia.
  - intros Hk. apply Hpos. lia.
Qed.

Lemma rerank_output_shape_witness :
  exists first picks,
    argmax (finite_vector example_quality) = Ok first /\
    ravel (Vector [0; 1]%nat) = first :: picks /\
    length (ravel (Vector [0; 1]%nat))
      = selection_size 2 (length (finite_vector example_quality)) /\
    ((Z.min 2 (Z.of_nat (length (finite_vector example_quality))) <= 1)%Z ->
       Vector [0; 1]%nat = Scalar first) /\
    ((1 < Z.min 2 (Z.of_nat (length (finite_vector example_quality))))%Z ->
       Vector [0; 1]%nat = Vector (first :: picks)).
Proof.
  apply (rerank_output_shape (1 # 2) (finite_vector example_quality)
           (finite_matrix example_similarity) 2).
  vm_compute. reflexivity.
Defined.

(** X2.  Asking for fewer indices gives a prefix: when [rerank] returns
    for [k'], it returns for every [k <= k'] the first
    [max(1, min(k, n))] indices of that output. *)
Theorem rerank_prefix lbd quality sim k k' out' :
  (k <= k')%Z ->
  rerank lbd quality sim k' = Ok out' ->
  exists out,
    rerank lbd quality sim k = Ok out /\
    ravel out = firstn (selection_size k (length quality)) (ravel out').
Proof.
  intros Hk H. unfold rerank in *.
  apply bind_ok in H. destruct H as (first & Hfirst & H).
  rewrite Hfirst. simpl bind.
  assert (Hn : (1 <= length quality)%nat).
  { destruct quality; [discriminate | simpl; lia]. }
  set (i := Z.to_nat (Z.min k (Z.of_nat (length quality)) - 1)) in *.
  set (i' := Z.to_nat (Z.min k' (Z.of_nat (length quality)) - 1)) in *.
  replace i' with (i + (i' - i))%nat in H by (unfold i, i'; lia).
  destruct (rerank_loop_prefix _ _ _ _ _ _ _ H) as (out & Hout & Hravel).
  exists out. split; [exact Hout|].
  rewrite Hravel, selection_size_iters by exact Hn. reflexivity.
Qed.

Lemma rerank_prefix_witness :
  exists out,
    rerank (1 # 2) (finite_vector example_quality)
           (finite_matrix example_similarity) 2 = Ok out /\
    ravel out = firstn (selection_size 2 (length (finite_vector example_quality)))
                       (ravel (Vector [0; 1; 2]%nat)).
Proof.
  apply (rerank_prefix (1 # 2) (finite_vector example_quality)
           (finite_matrix example_similarity) 2 3).
  - lia.
  - vm_compute. reflexivity.
Defined.

End RerankShape.

(* ================================================================== *)
(** * Further properties of the normalization *)

Module Normalization.
Import Arr ArrFacts Lib LibFacts Recommender RecommenderFacts Sample Entries.

Lemma sorted_lt_NoDup l : StronglySorted Z.lt l -> NoDup l.
Proof.
  induction 1 as [|x t _ IH Hx]; constructor; [|exact IH].
  intros Hin. rewrite Forall_forall in Hx. specialize (Hx x Hin). lia.
Qed.

(** In a strictly increasing list, positions and values compare alike. *)
Lemma sorted_positions l : StronglySorted Z.lt l ->
  forall i j x y,
    nth_error l i = Some x -> nth_error l j = Some y ->
    ((i < j)%nat <-> (x < y)%Z).
Proof.
  induction 1 as [|h t _ IH Hh]; intros i j x y Hi Hj.
  - destruct i; discriminate.
  - rewrite Forall_forall in Hh.
    destruct i as [|i], j as [|j]; simpl in Hi, Hj.
    + inversion Hi; inversion Hj; subst. lia.
    + inversion Hi; subst. apply nth_error_In in Hj.
      specialize (Hh y Hj). lia.
    + inversion Hj; subst. apply nth_error_In in Hi.
      specialize (Hh x Hi). lia.
    + rewrite <- (IH i j x y Hi Hj). lia.
Qed.

Lemma code_of_lt values x y :
  In x values -> In y values ->
  ((code_of values x < code_of values y)%Z <-> (x < y)%Z).
Proof.
  intros Hx Hy.
  destruct (code_of_spec values x Hx) as [Hx0 Hxn].
  destruct (code_of_spec values y Hy) as [Hy0 Hyn].
  rewrite <- (sorted_positions _ (categories_sorted values) _ _ _ _ Hxn Hyn).
  lia.
Qed.

Lemma code_of_eq values x y :
  In x values -> In y values ->
  (code_of values x = code_of values y <-> x = y).
Proof.
  intros Hx Hy. split; [|intros ->; reflexivity]. intros E.
  destruct (code_of_spec values x Hx) as [_ Hxn].
  destruct (code_of_spec values y Hy) as [_ Hyn].
  rewrite E in Hxn. congruence.
Qed.

(** X5.  The remapping keeps the order of the raw ids, hence tells them
    apart: for any two rows of the table, the user codes compare as the
    raw user ids do, and the item codes as the raw item ids. *)
Theorem get_interaction_order_preserving raw i j a b :
  nth_error raw i = Some a -> nth_error raw j = Some b ->
  exists a' b',
    nth_error (get_interaction raw) i = Some a' /\
    nth_error (get_interaction raw) j = Some b' /\
    ((userId a' < userId b')%Z <-> (raw_user a < raw_user b)%Z) /\
    (userId a' = userId b' <-> raw_user a = raw_user b) /\
    ((itemId a' < itemId b')%Z <-> (raw_item a < raw_item b)%Z) /\
    (itemId a' = itemId b' <-> raw_item a = raw_item b).
Proof.
  intros Ha Hb. unfold get_interaction.
  eexists. eexists.
  split; [apply map_nth_error; exact Ha|].
  split; [apply map_nth_error; exact Hb|].
  apply nth_error_In in Ha. apply nth_error_In in Hb.
  pose proof (in_map raw_user _ _ Ha). pose proof (in_map raw_user _ _ Hb).
  pose proof (in_map raw_item _ _ Ha). pose proof (in_map raw_item _ _ Hb).
  simpl. split; [apply code_of_lt; assumption|].
  split; [apply code_of_eq; assumption|].
  split; [apply code_of_lt; assumption | apply code_of_eq; assumption].
Qed.

Lemma get_interaction_order_preserving_witness :
  exists a' b',
    nth_error (get_interaction raw_table) 0 = Some a' /\
    nth_error (get_interaction raw_table) 1 = Some b' /\
    ((userId a' < userId b')%Z <-> (50 < 30)%Z) /\
    (userId a' = userId b' <-> 50%Z = 30%Z) /\
    ((itemId a' < itemId b')%Z <-> (700 < 900)%Z) /\
    (itemId a' = itemId b' <-> 700%Z = 900%Z).
Proof.
  apply (get_interaction_order_preserving raw_table 0 1
           (mk_raw 50 700 (int64_of 5 eq_refl))
           (mk_raw 30 900 (int64_of 3 eq_refl)));
    reflexivity.
Defined.

(** ** The dimensions count the distinct ids *)

Lemma code_of_below values x :
  In x values ->
  (code_of values x < Z.of_nat (length (categories values)))%Z.
Proof.
  intros Hx. destruct (code_of_spec values x Hx) as [H0 Hn].
  assert (Hlt : (Z.to_nat (code_of values x) < length (categories values))%nat).
  { apply nth_error_Some. rewrite Hn. discriminate. }
  lia.
Qed.

Lemma code_of_position values k x :
  nth_error (categories values) k = Some x ->
  code_of values x = Z.of_nat k.
Proof.
  intros Hk.
  assert (Hx : In x values).
  { apply categories_in. apply nth_error_In with k. exact Hk. }
  destruct (code_of_spec values x Hx) as [H0 Hn].
  assert (Hlt : (k < length (categories values))%nat).
  { apply nth_error_Some. rewrite Hk. discriminate. }
  pose proof (sorted_lt_NoDup _ (categories_sorted values)) as Hnd.
  rewrite NoDup_nth_error in Hnd.
  assert (k = Z.to_nat (code_of values x)) by (apply Hnd; congruence).
  lia.
Qed.

Lemma codes_range values c :
  In c (codes values) <->
  (0 <= c < Z.of_nat (length (categories values)))%Z.
Proof.
  unfold codes. rewrite in_map_iff. split.
  - intros (x & <- & Hx). split.
    + apply (code_of_spec values x Hx).
    + apply code_of_below. exact Hx.
  - intros [H0 Hlt].
    destruct (nth_error (categories values) (Z.to_nat c)) as [x|] eqn:E.
    + exists x. split.
      * rewrite (code_of_position values _ x E). lia.
      * apply categories_in. apply nth_error_In with (Z.to_nat c). exact E.
    + apply nth_error_None in E. lia.
Qed.

Lemma codes_max values :
  values <> [] ->
  column_max (codes values)
  = IntN (Z.of_nat (length (categories values)) - 1)%Z.
Proof.
  intros Hne.
  destruct (column_max_nonempty (codes values)) as [m Hm].
  { destruct values; [congruence | discriminate]. }
  rewrite Hm. f_equal.
  pose proof (column_max_in _ _ Hm) as Hin. apply codes_range in Hin.
  pose proof (column_max_bound _ _ Hm) as Hb. rewrite Forall_forall in Hb.
  assert (Hpos : (0 < length (categories values))%nat).
  { destruct values as [|v t]; [congruence|].
    assert (In v (categories (v :: t))) by (apply categories_in; left; reflexivity).
    destruct (categories (v :: t)); [contradiction | simpl; lia]. }
  assert (Hlast : In (Z.of_nat (length (categories values)) - 1)%Z (codes values)).
  { apply codes_range. lia. }
  specialize (Hb _ Hlast). lia.
Qed.

(** X6.  [n_users] is the number of distinct raw user ids of the table
    and [n_items] the number of distinct raw item ids. *)
Theorem dimensions_count_distinct_ids tts raw ts rs self :
  init tts raw ts rs = Ok self ->
  exists users items,
    NoDup users /\ (forall x, In x users <-> In x (map raw_user raw)) /\
    NoDup items /\ (forall x, In x items <-> In x (map raw_item raw)) /\
    n_users self = Z.of_nat (length users) /\
    n_items self = Z.of_nat (length items).
Proof.
  intros Hinit.
  destruct (init_ok _ _ _ _ _ Hinit) as (_ & Hu & Hi & _).
  assert (Hne : raw <> []).
  { intros ->. discriminate Hu. }
  rewrite get_interaction_users in Hu. rewrite get_interaction_items in Hi.
  rewrite codes_max in Hu by (destruct raw; [congruence | discriminate]).
  rewrite codes_max in Hi by (destruct raw; [congruence | discriminate]).
  exists (categories (map raw_user raw)), (categories (map raw_item raw)).
  split; [apply sorted_lt_NoDup, categories_sorted|].
  split; [apply categories_in|].
  split; [apply sorted_lt_NoDup, categories_sorted|].
  split; [apply categories_in|].
  inversion Hu. inversion Hi. lia.
Qed.

Lemma dimensions_count_distinct_ids_witness :
  exists self,
    init last_row_split raw_table 2 false = Ok self /\
    exists users items,
      NoDup users /\
      (forall x, In x users <-> In x (map raw_user raw_table)) /\
      NoDup items /\
      (forall x, In x items <-> In x (map raw_item raw_table)) /\
      n_users self = Z.of_nat (length users) /\
      n_items self = Z.of_nat (length items).
Proof.
  eexists. split; [vm_compute; reflexivity|].
  apply (dimensions_count_distinct_ids last_row_split raw_table 2 false).
  vm_compute. reflexivity.
Defined.

(** ** Normalizing twice *)

Lemma sorted_lt_unique l1 : forall l2,
  StronglySorted Z.lt l1 -> StronglySorted Z.lt l2 ->
  (forall x, In x l1 <-> In x l2) -> l1 = l2.
Proof.
  induction l1 as [|x t1 IH]; intros [|y t2] H1 H2 Hsame.
  - reflexivity.
  - exfalso. apply (Hsame y). left. reflexivity.
  - exfalso. apply (Hsame x). left. reflexivity.
  - inversion H1 as [|? ? Ht1 Hx]; subst.
    inversion H2 as [|? ? Ht2 Hy]; subst.
    rewrite Forall_forall in Hx, Hy.
    assert (E : x = y).
    { destruct (proj1 (Hsame x) (or_introl eq_refl)) as [E|Hin];
        [symmetry; exact E|].
      destruct (proj2 (Hsame y) (or_introl eq_refl)) as [E|Hin'];
        [exact E|].
      specialize (Hx y Hin'). specialize (Hy x Hin). lia. }
    subst y. f_equal. apply IH; [exact Ht1 | exact Ht2 |].
    intros z. split; intros Hz.
    + destruct (proj1 (Hsame z) (or_intror Hz)) as [E|Hin]; [|exact Hin].
      specialize (Hx z Hz). lia.
    + destruct (proj2 (Hsame z) (or_intror Hz)) as [E|Hin]; [|exact Hin].
      specialize (Hy z Hz). lia.
Qed.

Lemma iota_sorted n : forall s,
  StronglySorted Z.lt (map Z.of_nat (seq s n)).
Proof.
  induction n as [|n IH]; intros s; simpl; constructor; [apply IH|].
  apply Forall_forall. intros y Hy. apply in_map_iff in Hy.
  destruct Hy as (k & <- & Hk). apply in_seq in Hk. lia.
Qed.

Lemma position_from_iota n : forall s i c,
  (Z.of_nat s <= c < Z.of_nat (s + n))%Z ->
  position_from i c (map Z.of_nat (seq s n)) = (i + (c - Z.of_nat s))%Z.
Proof.
  induction n as [|n IH]; intros s i c Hc; simpl; [lia|].
  destruct (Z.eqb_spec c (Z.of_nat s)) as [->|Hne]; [lia|].
  rewrite IH by lia. lia.
Qed.

Lemma categories_of_codes values :
  categories (codes values)
  = map Z.of_nat (seq 0 (length (categories values))).
Proof.
  apply sorted_lt_unique.
  - apply categories_sorted.
  - apply iota_sorted.
  - intros c. rewrite categories_in, codes_range, in_map_iff. split.
    + intros Hc. exists (Z.to_nat c). split; [lia|]. apply in_seq. lia.
    + intros (k & <- & Hk). apply in_seq in Hk. lia.
Qed.

Lemma codes_idempotent values : codes (codes values) = codes values.
Proof.
  unfold codes at 1. rewrite <- (map_id (codes values)) at 3.
  apply map_ext_in. intros c Hc. apply codes_range in Hc.
  unfold code_of. rewrite categories_of_codes.
  rewrite position_from_iota by (simpl; lia). simpl. lia.
Qed.

Lemma map_fixed_point {A} (f : A -> A) l :
  map f l = l -> forall x, In x l -> f x = x.
Proof.
  induction l as [|y l IH]; intros Hmap x Hx; [contradiction|].
  simpl in Hmap. inversion Hmap as [[Hy Hl]].
  destruct Hx as [<-|Hx]; [exact Hy | apply IH; assumption].
Qed.

(** X7.  Normalizing a normalized table changes nothing: read back as a
    raw table, the output of [get_interaction] is mapped to itself. *)
Theorem get_interaction_idempotent raw :
  get_interaction (map as_raw (get_interaction raw)) = get_interaction raw.
Proof.
  set (df := get_interaction raw).
  assert (Hu : map raw_user (map as_raw df) = codes (map raw_user raw)).
  { rewrite map_map. simpl. apply get_interaction_users. }
  assert (Hi : map raw_item (map as_raw df) = codes (map raw_item raw)).
  { rewrite map_map. simpl. apply get_interaction_items. }
  unfold get_interaction at 1. rewrite Hu, Hi, map_map.
  rewrite <- (map_id df) at 2. apply map_ext_in. intros r Hr. simpl.
  pose proof (in_map userId _ _ Hr) as Hru.
  pose proof (in_map itemId _ _ Hr) as Hri.
  unfold df in Hru, Hri.
  rewrite get_interaction_users in Hru. rewrite get_interaction_items in Hri.
  assert (Hcode : forall values c, In c (codes values) ->
            code_of (codes values) c = c).
  { intros values c Hc.
    apply (map_fixed_point _ (codes values) (codes_idempotent values) c Hc). }
  rewrite (Hcode _ _ Hru), (Hcode _ _ Hri). destruct r; reflexivity.
Qed.

End Normalization.

(* ================================================================== *)
(** * Further properties of the split *)

Module Split.
Import Arr ArrFacts Lib LibFacts Recommender RecommenderFacts.
Import Sample SampleFacts Entries.

Lemma combine_columns (part : frame) :
  combine (combine (map userId part) (map itemId part))
          (map astype_int32 (map interaction part))
  = map entry_of part.
Proof.
  induction part as [|r part IH]; simpl; [reflexivity|].
  rewrite IH. reflexivity.
Qed.

Lemma coo_entries_of values_of part a b m :
  values_of = map interaction part ->
  new_coo_matrix values_of (map userId part) (map itemId part)
    (IntN a, IntN b) = Ok m ->
  coo_entries m = map entry_of part.
Proof.
  intros -> H. apply new_coo_matrix_ok in H.
  destruct H as (_ & Hr & Hc & Hd). unfold coo_entries.
  rewrite Hr, Hc, Hd. apply combine_columns.
Qed.

Lemma incl_firstn {A} n (l : list A) : incl (firstn n l) l.
Proof.
  intros x Hx. rewrite <- (firstn_skipn n l). apply in_or_app. left. exact Hx.
Qed.

Lemma incl_skipn {A} n (l : list A) : incl (skipn n l) l.
Proof.
  intros x Hx. rewrite <- (firstn_skipn n l). apply in_or_app. right. exact Hx.
Qed.

(** X8.  With [random_split] false and [test_size > 1] the splitter is
    not consulted: for every table with at least one row and an integer
    interaction column the constructor succeeds, the test matrix holds
    the first [int(test_size)] rows of the normalized frame and the train
    matrix the remaining rows, in the order of the table, each value
    cast to int32 by wrap-around. *)
Theorem contiguous_split tts raw ts :
  raw <> [] -> float_column (map raw_interaction raw) = false -> 1 < ts ->
  exists self,
    init tts raw ts false = Ok self /\
    coo_entries (test_mat self)
      = map entry_of (firstn (Z.to_nat (Qtrunc ts)) (get_interaction raw)) /\
    coo_entries (train_mat self)
      = map entry_of (skipn (Z.to_nat (Qtrunc ts)) (get_interaction raw)).
Proof.
  intros Hne Hint Hts.
  assert (Hsplit : split_rows tts (get_interaction raw) ts false
                   = Ok (skipn (Z.to_nat (Qtrunc ts)) (get_interaction raw),
                         firstn (Z.to_nat (Qtrunc ts)) (get_interaction raw))).
  { unfold split_rows. simpl.
    destruct (Qcompare_spec 1 ts); try reflexivity; lra. }
  destruct (init_builds tts raw ts false _ _ Hne Hint Hsplit
              (incl_skipn _ _) (incl_firstn _ _)) as [self Hself].
  exists self. split; [exact Hself|].
  destruct (init_ok _ _ _ _ _ Hself)
    as (_ & _ & _ & train & test & Hsplit' & Htr & Hte).
  rewrite Hsplit in Hsplit'. inversion Hsplit'; subst train test.
  split; [eapply coo_entries_of; [reflexivity | exact Hte]
         | eapply coo_entries_of; [reflexivity | exact Htr]].
Qed.

(** On a table whose first value is [2^32 + 1]: that value is stored
    as 1. *)
Lemma contiguous_split_witness :
  exists self,
    init last_row_split wide_table 2 false = Ok self /\
    coo_entries (test_mat self)
      = map entry_of (firstn (Z.to_nat (Qtrunc 2)) (get_interaction wide_table)) /\
    coo_entries (train_mat self)
      = map entry_of (skipn (Z.to_nat (Qtrunc 2)) (get_interaction wide_table)).
Proof.
  apply contiguous_split; [discriminate | reflexivity | reflexivity].
Defined.

Lemma wide_table_entries :
  map entry_of (get_interaction wide_table)
  = [(0, 0, 1); (1, 1, 3); (0, 1, 7)]%Z.
Proof. vm_compute. reflexivity. Qed.

(** X9.  Whatever the policy, the split loses and invents no
    interaction: the entries stored in the train and test matrices are,
    together, the entries of the rows of the normalized frame, each
    once, where the entry of a row holds its two codes and its value
    cast to int32 by wrap-around. *)
Theorem split_keeps_every_interaction tts raw ts rs self :
  splits_rows tts ->
  init tts raw ts rs = Ok self ->
  Permutation (coo_entries (train_mat self) ++ coo_entries (test_mat self))
              (map entry_of (get_interaction raw)).
Proof.
  intros Htts Hinit.
  destruct (init_ok _ _ _ _ _ Hinit)
    as (_ & _ & _ & train & test & Hsplit & Htr & Hte).
  rewrite (coo_entries_of _ train _ _ _ eq_refl Htr).
  rewrite (coo_entries_of _ test _ _ _ eq_refl Hte).
  rewrite <- map_app. apply Permutation_map.
  exact (split_rows_incl _ _ _ _ _ _ Htts Hsplit).
Qed.

Lemma split_keeps_every_interaction_witness :
  exists self,
    init last_row_split wide_table (3 # 10) true = Ok self /\
    Permutation (coo_entries (train_mat self) ++ coo_entries (test_mat self))
                (map entry_of (get_interaction wide_table)).
Proof.
  eexists. split; [vm_compute; reflexivity|].
  apply (split_keeps_every_interaction last_row_split wide_table (3 # 10) true).
  - exact last_row_split_splits.
  - vm_compute. reflexivity.
Defined.

End Split.

(* ================================================================== *)
(** * Further properties of the top-N retrieval *)

Module TopN.
Import Arr ArrFacts Lib LibFacts Recommender RecommenderFacts.
Import Sample SampleFacts Entries Split.

Lemma slice_to_firstn top_n (l : list nat) :
  (- Z.of_nat (length l) <= top_n < Z.of_nat (length l))%Z ->
  slice_to top_n l = firstn (mapping_size top_n (length l)) l.
Proof.
  intros _. unfold slice_to, mapping_size. destruct (top_n <? 0)%Z; reflexivity.
Qed.

Lemma NoDup_firstn {A} n (l : list A) : NoDup l -> NoDup (firstn n l).
Proof.
  intros H. rewrite <- (firstn_skipn n l) in H.
  exact (NoDup_app_remove_r _ _ H).
Qed.

Lemma nth_neg_scores p k :
  nth k (map xneg p) NaN = xneg (nth k p NaN).
Proof. change NaN with (xneg NaN) at 1. apply map_nth. Qed.

Lemma sort_leb_neg x y :
  sort_leb (xneg x) (xneg y) = true -> xltb x y = false.
Proof. order_cases. Qed.

(** The run of [predict_top_n_unseen] when the scorer answers and
    [top_n] is within the bounds of [np.argpartition]. *)
Lemma predict_top_n_unseen_run
      tts predict argpartition raw ts rs self u top_n p :
  argpartition_spec argpartition ->
  init tts raw ts rs = Ok self ->
  predict_for_userId predict self u = Ok p ->
  Z.of_nat (length p) = n_items self ->
  (- n_items self <= top_n < n_items self)%Z ->
  exists p' part,
    predict_for_userId_unseen predict self u = Ok p' /\
    length p' = length p /\
    partitions_at (map xneg p') (partition_rank top_n (length p)) part /\
    predict_top_n_unseen predict argpartition self u top_n
    = Ok (map (fun k => (k, nth k p' NaN))
              (firstn (mapping_size top_n (length p)) part)).
Proof.
  intros Hspec Hinit Hp Hlen Htop.
  destruct (predict_unseen_masks _ _ _ _ _ _ _ _ Hinit Hp Hlen)
    as (p' & Hp' & Hlen' & _).
  set (a := map xneg p').
  assert (Ha : length a = length p) by (unfold a; rewrite length_map; exact Hlen').
  set (part := argpartition a (partition_rank top_n (length p))).
  assert (Hpart : partitions_at a (partition_rank top_n (length p)) part).
  { apply Hspec. rewrite Ha. unfold partition_rank.
    destruct (Z.ltb_spec top_n 0); lia. }
  assert (Hrun : np_argpartition argpartition a top_n = Ok part).
  { unfold np_argpartition. rewrite Ha.
    replace ((- Z.of_nat (length p) <=? top_n)
             && (top_n <? Z.of_nat (length p)))%Z with true
      by (symmetry; apply andb_true_iff; split;
          [apply Z.leb_le | apply Z.ltb_lt]; lia).
    reflexivity. }
  exists p', part. split; [exact Hp'|]. split; [exact Hlen'|].
  split; [exact Hpart|].
  destruct Hpart as [Hperm _]. rewrite Ha in Hperm.
  assert (Hpl : length part = length p).
  { rewrite (Permutation_length Hperm). apply length_seq. }
  unfold predict_top_n_unseen. rewrite Hp'. cbn [bind]. fold a.
  rewrite Hrun. cbn [bind].
  rewrite slice_to_firstn by (rewrite Hpl; lia). rewrite Hpl.
  rewrite dict_of_keys_distinct; [reflexivity | | | intros k _ []].
  - apply NoDup_firstn.
    apply (Permutation_NoDup (Permutation_sym Hperm)), seq_NoDup.
  - apply Forall_forall. intros k Hk. apply incl_firstn in Hk.
    apply (Permutation_in k Hperm) in Hk. apply in_seq in Hk. lia.
Qed.

(** X10.  The mapping is a top-N: for [0 <= top_n < n_items], no item
    code left out of the returned mapping has a masked score strictly
    above the masked score of a returned one. *)
Theorem top_n_is_a_top_n
        tts predict argpartition raw ts rs self u top_n p :
  argpartition_spec argpartition ->
  init tts raw ts rs = Ok self ->
  predict_for_userId predict self u = Ok p ->
  Z.of_nat (length p) = n_items self ->
  (0 <= top_n < n_items self)%Z ->
  exists p' d,
    predict_for_userId_unseen predict self u = Ok p' /\
    predict_top_n_unseen predict argpartition self u top_n = Ok d /\
    forall key j,
      In key (map fst d) -> (j < length p)%nat -> ~ In j (map fst d) ->
      xltb (nth key p' NaN) (nth j p' NaN) = false.
Proof.
  intros Hspec Hinit Hp Hlen Htop.
  destruct (predict_top_n_unseen_run _ _ _ _ _ _ _ u top_n p
              Hspec Hinit Hp Hlen ltac:(lia))
    as (p' & part & Hp' & Hlen' & [Hperm Hord] & Hrun).
  rewrite length_map, Hlen' in Hperm, Hord.
  assert (Hpl : length part = length p).
  { rewrite (Permutation_length Hperm). apply length_seq. }
  assert (Hrank : partition_rank top_n (length p) = Z.to_nat top_n).
  { unfold partition_rank. destruct (Z.ltb_spec top_n 0); [lia | reflexivity]. }
  assert (Hsize : mapping_size top_n (length p) = Z.to_nat top_n).
  { unfold mapping_size. destruct (Z.ltb_spec top_n 0); [lia | reflexivity]. }
  rewrite Hrank in Hord. rewrite Hsize in Hrun.
  set (t := Z.to_nat top_n) in *.
  eexists p', _. split; [exact Hp'|]. split; [exact Hrun|].
  rewrite map_map. simpl. rewrite map_id.
  intros key j Hkey Hj Hout.
  apply (In_nth _ _ 0%nat) in Hkey. destruct Hkey as (i & Hi & Hnth).
  rewrite length_firstn in Hi. rewrite nth_firstn in Hnth.
  destruct (Nat.ltb_spec i t) as [Hit|Hit]; [|lia].
  assert (Hjin : In j part).
  { apply (Permutation_in j (Permutation_sym Hperm)). apply in_seq. lia. }
  apply (In_nth _ _ 0%nat) in Hjin. destruct Hjin as (i' & Hi' & Hnth').
  assert (Hti : (t <= i')%nat).
  { destruct (Nat.lt_ge_cases i' t) as [Hlt|Hge]; [|exact Hge].
    exfalso. apply Hout. rewrite <- Hnth'.
    assert (E : nth i' (firstn t part) 0%nat = nth i' part 0%nat).
    { rewrite nth_firstn. destruct (Nat.ltb_spec i' t); [reflexivity | lia]. }
    rewrite <- E. apply nth_In. rewrite length_firstn. lia. }
  destruct (Hord i i' ltac:(lia) ltac:(lia)) as [H1 H2].
  rewrite Hnth in H1. rewrite Hnth' in H2.
  apply sort_leb_neg. rewrite <- !nth_neg_scores.
  exact (sort_leb_trans _ _ _ H1 H2).
Qed.

Lemma top_n_is_a_top_n_witness :
  exists self,
    init last_row_split raw_table 2 false = Ok self /\
    exists p' d,
      predict_for_userId_unseen item_code_scorer self 0 = Ok p' /\
      predict_top_n_unseen item_code_scorer sorting_argpartition self 0 1
        = Ok d /\
      forall key j,
        In key (map fst d) -> (j < 3)%nat -> ~ In j (map fst d) ->
        xltb (nth key p' NaN) (nth j p' NaN) = false.
Proof.
  eexists. split; [vm_compute; reflexivity|].
  apply (top_n_is_a_top_n last_row_split item_code_scorer
           sorting_argpartition raw_table 2 false _ 0%Z 1%Z
           [Fin 0; Fin 1; Fin 2]).
  - exact sorting_argpartition_spec.
  - vm_compute. reflexivity.
  - vm_compute. reflexivity.
  - vm_compute. reflexivity.
  - vm_compute. split; congruence.
Defined.

(** X11.  For [-n_items <= top_n < n_items] the call returns a mapping of
    distinct item codes to their masked scores; it has [top_n] entries
    when [top_n >= 0], and [n_items + top_n] entries when [top_n] is
    negative: a negative [top_n] is not rejected. *)
Theorem top_n_mapping_size
        tts predict argpartition raw ts rs self u top_n p :
  argpartition_spec argpartition ->
  init tts raw ts rs = Ok self ->
  predict_for_userId predict self u = Ok p ->
  Z.of_nat (length p) = n_items self ->
  (- n_items self <= top_n < n_items self)%Z ->
  exists p' d,
    predict_for_userId_unseen predict self u = Ok p' /\
    predict_top_n_unseen predict argpartition self u top_n = Ok d /\
    NoDup (map fst d) /\
    length d = mapping_size top_n (length p) /\
    forall key v, In (key, v) d -> nth_error p' key = Some v.
Proof.
  intros Hspec Hinit Hp Hlen Htop.
  destruct (predict_top_n_unseen_run _ _ _ _ _ _ _ u top_n p
              Hspec Hinit Hp Hlen Htop)
    as (p' & part & Hp' & Hlen' & [Hperm _] & Hrun).
  rewrite length_map, Hlen' in Hperm.
  assert (Hpl : length part = length p).
  { rewrite (Permutation_length Hperm). apply length_seq. }
  eexists p', _. split; [exact Hp'|]. split; [exact Hrun|].
  rewrite map_map. simpl. rewrite map_id. split; [|split].
  - apply NoDup_firstn.
    apply (Permutation_NoDup (Permutation_sym Hperm)), seq_NoDup.
  - rewrite length_map, length_firstn, Hpl.
    unfold mapping_size. destruct (Z.ltb_spec top_n 0); lia.
  - intros key v Hin. apply in_map_iff in Hin.
    destruct Hin as (k & E & Hk). inversion E; subst.
    apply nth_error_nth'. rewrite Hlen'.
    apply incl_firstn in Hk. apply (Permutation_in _ Hperm) in Hk.
    apply in_seq in Hk. lia.
Qed.

Lemma top_n_mapping_size_witness :
  exists self,
    init last_row_split raw_table 2 false = Ok self /\
    exists p' d,
      predict_for_userId_unseen item_code_scorer self 1 = Ok p' /\
      predict_top_n_unseen item_code_scorer sorting_argpartition self 1 (-1)
        = Ok d /\
      NoDup (map fst d) /\
      length d = mapping_size (-1) 3 /\
      forall key v, In (key, v) d -> nth_error p' key = Some v.
Proof.
  eexists. split; [vm_compute; reflexivity|].
  apply (top_n_mapping_size last_row_split item_code_scorer
           sorting_argpartition raw_table 2 false _ 1%Z (-1)%Z
           [Fin 0; Fin 1; Fin 2]).
  - exact sorting_argpartition_spec.
  - vm_compute. reflexivity.
  - vm_compute. reflexivity.
  - vm_compute. reflexivity.
  - vm_compute. split; congruence.
Defined.

(** X12.  A [top_n] of [n_items] or more, or below [-n_items], is
    refused: with a scorer that answers, [predict_top_n_unseen] raises the
    ValueError of [np.argpartition], whatever the selection routine. *)
Theorem top_n_out_of_bounds
        tts predict argpartition raw ts rs self u top_n p :
  init tts raw ts rs = Ok self ->
  predict_for_userId predict self u = Ok p ->
  Z.of_nat (length p) = n_items self ->
  (n_items self <= top_n \/ top_n < - n_items self)%Z ->
  predict_top_n_unseen predict argpartition self u top_n = Raise ValueError.
Proof.
  intros Hinit Hp Hlen Htop.
  destruct (predict_unseen_masks _ _ _ _ _ _ _ _ Hinit Hp Hlen)
    as (p' & Hp' & Hlen' & _).
  unfold predict_top_n_unseen. rewrite Hp'. cbn [bind].
  rewrite np_argpartition_out_of_bounds; [reflexivity|].
  rewrite length_map, Hlen'. lia.
Qed.

Lemma top_n_out_of_bounds_witness :
  exists self,
    init last_row_split raw_table 2 false = Ok self /\
    predict_top_n_unseen item_code_scorer sorting_argpartition self 1 3
    = Raise ValueError.
Proof.
  eexists. split; [vm_compute; reflexivity|].
  apply (top_n_out_of_bounds last_row_split item_code_scorer
           sorting_argpartition raw_table 2 false _ 1%Z 3%Z
           [Fin 0; Fin 1; Fin 2]).
  - vm_compute. reflexivity.
  - vm_compute. reflexivity.
  - vm_compute. reflexivity.
  - vm_compute. left. congruence.
Defined.

(** ** A scorer that returns too few scores *)

Lemma assign_items_out_of_bounds v idx : forall a,
  Forall (fun i => (0 <= i)%Z) idx ->
  Exists (fun i => (Z.of_nat (length a) <= i)%Z) idx ->
  assign_items idx v a = Raise IndexError.
Proof.
  induction idx as [|i t IH]; intros a Hnn Hex; [inversion Hex|].
  inversion Hnn as [|? ? Hi Ht]; subst. simpl.
  destruct (Z.ltb_spec i (Z.of_nat (length a))) as [Hlt|Hge].
  - replace (0 <=? i)%Z with true by (symmetry; apply Z.leb_le; exact Hi).
    simpl. apply IH; [exact Ht|]. rewrite set_at_length.
    inversion Hex; subst; [lia | assumption].
  - rewrite andb_false_r.
    replace (i <? 0)%Z with false by (symmetry; apply Z.ltb_ge; exact Hi).
    rewrite andb_false_r. reflexivity.
Qed.

(** X13.  When the scorer returns fewer scores than the largest item code
    the user has interacted with requires, the masking assignment raises
    IndexError. *)
Theorem short_prediction_raises tts predict raw ts rs self u p i :
  init tts raw ts rs = Ok self ->
  predict_for_userId predict self u = Ok p ->
  In i (seen_items self u) ->
  (Z.of_nat (length p) <= i)%Z ->
  predict_for_userId_unseen predict self u = Raise IndexError.
Proof.
  intros Hinit Hp Hin Hshort.
  destruct (init_ok _ _ _ _ _ Hinit) as (Hdf & Hu & Hi & _).
  unfold predict_for_userId_unseen. rewrite Hp. cbn [bind].
  apply assign_items_out_of_bounds.
  - apply Forall_forall. intros c Hc. apply seen_items_spec in Hc.
    destruct Hc as (r & Hr & _ & <-). rewrite Hdf in Hr.
    destruct (frame_codes_in_bounds raw _ _ Hu Hi r Hr) as [_ Hb]. lia.
  - apply Exists_exists. exists i. split; assumption.
Qed.

Lemma short_prediction_raises_witness :
  exists self,
    init last_row_split raw_table 2 false = Ok self /\
    predict_for_userId_unseen short_scorer self 0 = Raise IndexError.
Proof.
  eexists. split; [vm_compute; reflexivity|].
  apply (short_prediction_raises last_row_split short_scorer raw_table
           2 false _ 0%Z [Fin 1; Fin 2] 2%Z).
  - vm_compute. reflexivity.
  - vm_compute. reflexivity.
  - vm_compute. left. reflexivity.
  - vm_compute. congruence.
Defined.

End TopN.

(* ================================================================== *)
(** * Properties of [predict_top_n_item] *)

Module RankedItems.
Import Arr ArrFacts Lib LibFacts Recommender RecommenderFacts.
Import Sample SampleFacts Entries Split TopN Catalogue Normalization.

(** ** The insertion sort meets the promise of [sort_values] *)

Lemma desc_leb_refl x : desc_leb x x = true.
Proof. order_cases. Qed.

Lemma desc_leb_total x y : desc_leb x y = false -> desc_leb y x = true.
Proof. order_cases. Qed.

Lemma desc_leb_trans x y z :
  desc_leb x y = true -> desc_leb y z = true -> desc_leb x z = true.
Proof. order_cases. Qed.

Lemma insert_candidate_perm c rows :
  Permutation (insert_candidate c rows) (c :: rows).
Proof.
  induction rows as [|r t IH]; simpl; [apply Permutation_refl|].
  destruct (desc_leb (snd c) (snd r)); [apply Permutation_refl|].
  apply Permutation_trans with (r :: c :: t);
    [apply perm_skip; exact IH | apply perm_swap].
Qed.

Lemma insert_candidate_sorted c rows :
  StronglySorted by_score rows ->
  StronglySorted by_score (insert_candidate c rows).
Proof.
  induction 1 as [|r t Ht IH Hr]; simpl.
  - constructor; constructor.
  - destruct (desc_leb (snd c) (snd r)) eqn:E.
    + constructor; [constructor; assumption|].
      constructor; [exact E|].
      eapply Forall_impl; [|exact Hr]. intros x Hx.
      exact (desc_leb_trans _ _ _ E Hx).
    + constructor; [exact IH|].
      apply (Permutation_Forall
               (Permutation_sym (insert_candidate_perm c t))).
      constructor; [apply desc_leb_total; exact E | exact Hr].
Qed.

Lemma insertion_sort_values_sorts : sorts_descending insertion_sort_values.
Proof.
  intros rows. unfold insertion_sort_values. split.
  - induction rows as [|c rows IH]; simpl; [constructor|].
    eapply Permutation_trans; [apply insert_candidate_perm|].
    apply perm_skip. exact IH.
  - induction rows as [|c rows IH]; simpl; [constructor|].
    apply insert_candidate_sorted. exact IH.
Qed.

(** ** The left join *)

Section JoinFacts.

Variable attrs : Type.
Implicit Types (items : list (Z * attrs)) (c : candidate).

Lemma merge_left_in items cs c a :
  In (c, a) (merge_left cs items) <->
  In c cs /\
  match a with
  | None => matches items (fst c) = []
  | Some x => In (Z.of_nat (fst c), x) items
  end.
Proof.
  unfold merge_left. rewrite in_flat_map. split.
  - intros (c0 & Hc0 & Hin).
    destruct (matches items (fst c0)) as [|m ms] eqn:E.
    + destruct Hin as [Hin|[]]. inversion Hin; subst. auto.
    + rewrite <- E in Hin. apply in_map_iff in Hin.
      destruct Hin as (it & Hit & Hm). inversion Hit; subst.
      split; [exact Hc0|]. unfold matches in Hm. apply filter_In in Hm.
      destruct Hm as [Hm Hkey]. apply Z.eqb_eq in Hkey.
      rewrite <- Hkey. destruct it; exact Hm.
  - intros [Hc Ha]. exists c. split; [exact Hc|].
    destruct a as [x|].
    + assert (Hm : In (Z.of_nat (fst c), x) (matches items (fst c))).
      { unfold matches. apply filter_In. split; [exact Ha|]. apply Z.eqb_refl. }
      destruct (matches items (fst c)) as [|m ms]; [contradiction|].
      apply in_map_iff.
      exists (Z.of_nat (fst c), x). split; [reflexivity | exact Hm].
    + rewrite Ha. left. reflexivity.
Qed.

Lemma merge_left_keeps items cs c :
  In c cs -> exists a, In (c, a) (merge_left cs items).
Proof.
  intros Hc. destruct (matches items (fst c)) as [|m ms] eqn:E.
  - exists None. apply merge_left_in. auto.
  - exists (Some (snd m)). apply merge_left_in. split; [exact Hc|].
    assert (Hm : In m (matches items (fst c))) by (rewrite E; left; reflexivity).
    unfold matches in Hm. apply filter_In in Hm. destruct Hm as [Hm Hkey].
    apply Z.eqb_eq in Hkey. rewrite <- Hkey. destruct m; exact Hm.
Qed.

Lemma matches_unique items key :
  NoDup (map fst items) -> (length (matches items key) <= 1)%nat.
Proof.
  unfold matches. induction items as [|it items IH]; simpl; intros Hnd; [lia|].
  inversion Hnd as [|? ? Hnot Hnd']; subst.
  destruct (Z.eqb_spec (fst it) (Z.of_nat key)) as [E|E]; [|apply IH; exact Hnd'].
  simpl.
  assert (Hnone : filter (fun it0 => (fst it0 =? Z.of_nat key)%Z) items = []).
  { destruct (filter (fun it0 => (fst it0 =? Z.of_nat key)%Z) items)
      as [|m ms] eqn:F; [reflexivity|]. exfalso.
    assert (Hm : In m (filter (fun it0 => (fst it0 =? Z.of_nat key)%Z) items))
      by (rewrite F; left; reflexivity).
    apply filter_In in Hm. destruct Hm as [Hm Hkey]. apply Z.eqb_eq in Hkey.
    apply Hnot. rewrite E, <- Hkey. apply in_map. exact Hm. }
  rewrite Hnone. simpl. lia.
Qed.

Lemma flat_map_singletons {A B} (f : A -> list B) l :
  (forall x, length (f x) = 1%nat) -> length (flat_map f l) = length l.
Proof.
  intros H. induction l as [|x l IH]; simpl; [reflexivity|].
  rewrite length_app, H, IH. reflexivity.
Qed.

Lemma merge_left_length items cs :
  NoDup (map fst items) -> length (merge_left cs items) = length cs.
Proof.
  intros Hnd. unfold merge_left. apply flat_map_singletons. intros c.
  pose proof (matches_unique items (fst c) Hnd) as Hle.
  destruct (matches items (fst c)) as [|m [|m' ms]]; simpl in *;
    [reflexivity | reflexivity | lia].
Qed.

Lemma sorted_app {A} (R : A -> A -> Prop) l1 l2 :
  StronglySorted R l1 -> StronglySorted R l2 ->
  (forall x y, In x l1 -> In y l2 -> R x y) ->
  StronglySorted R (l1 ++ l2).
Proof.
  induction 1 as [|x l1 H1 IH Hx]; intros H2 Hcross; simpl; [exact H2|].
  constructor.
  - apply IH; [exact H2|]. intros a b Ha Hb. apply Hcross; [right|]; assumption.
  - apply Forall_app. split; [exact Hx|].
    apply Forall_forall. intros y Hy. apply Hcross; [left; reflexivity | exact Hy].
Qed.

Lemma same_key_sorted {A} (R : A -> A -> Prop) (l : list A) :
  (forall x y, In x l -> In y l -> R x y) -> StronglySorted R l.
Proof.
  induction l as [|x l IH]; intros H; constructor.
  - apply IH. intros a b Ha Hb. apply H; right; assumption.
  - apply Forall_forall. intros y Hy. apply H; [left; reflexivity | right; exact Hy].
Qed.

Lemma flat_map_sorted {A B} (R : A -> A -> Prop) (f : A -> list B)
      (key : B -> A) l :
  (forall x, R x x) ->
  (forall x y, In y (f x) -> key y = x) ->
  StronglySorted R l ->
  StronglySorted (fun a b => R (key a) (key b)) (flat_map f l).
Proof.
  intros Hrefl Hkey. induction 1 as [|x l Hl IH Hx]; simpl; [constructor|].
  apply sorted_app.
  - apply same_key_sorted. intros a b Ha Hb.
    rewrite (Hkey x a Ha), (Hkey x b Hb). apply Hrefl.
  - exact IH.
  - intros a b Ha Hb. rewrite (Hkey x a Ha).
    apply in_flat_map in Hb. destruct Hb as (x' & Hx' & Hb).
    rewrite (Hkey x' b Hb). rewrite Forall_forall in Hx. apply Hx. exact Hx'.
Qed.

Lemma merge_left_sorted items cs :
  StronglySorted by_score cs ->
  StronglySorted (fun r1 r2 => by_score (fst r1) (fst r2))
                 (merge_left cs items).
Proof.
  intros Hcs. unfold merge_left.
  apply (flat_map_sorted by_score _ fst cs); [| |exact Hcs].
  - intros x. apply desc_leb_refl.
  - intros c r Hr. destruct (matches items (fst c)) as [|m ms].
    + destruct Hr as [<-|[]]. reflexivity.
    + apply in_map_iff in Hr. destruct Hr as (it & <- & _). reflexivity.
Qed.

Variable predict : list Z -> list Z -> result (list xfloat).
Variable argpartition : list xfloat -> nat -> list nat.
Variable sort_values : list candidate -> list candidate.

Lemma predict_top_n_item_run items self u top_n d :
  predict_top_n_unseen predict argpartition self u top_n = Ok d ->
  d <> [] ->
  predict_top_n_item predict argpartition sort_values items self u top_n
  = Ok (merge_left (sort_values d) items).
Proof.
  intros Hd Hne. unfold predict_top_n_item. rewrite Hd. cbn [bind].
  destruct d; [congruence|]. reflexivity.
Qed.

End JoinFacts.

(** X14.  The left join drops no candidate: when the top-N mapping has an
    entry, every entry of it appears in the returned table, with the
    attributes of a catalogue row of its item code, or with null
    attributes when the catalogue has no such row; and when no item code
    occurs twice in the catalogue the table has one row per entry. *)
Theorem predict_top_n_item_keeps_candidates
        attrs predict argpartition sort_values
        (items : list (Z * attrs)) self u top_n d :
  sorts_descending sort_values ->
  predict_top_n_unseen predict argpartition self u top_n = Ok d ->
  d <> [] ->
  exists rows,
    predict_top_n_item predict argpartition sort_values items self u top_n
      = Ok rows /\
    (forall c, In c d -> exists a, In (c, a) rows) /\
    (forall c a, In (c, a) rows ->
       In c d /\
       match a with
       | None => matches items (fst c) = []
       | Some x => In (Z.of_nat (fst c), x) items
       end) /\
    (NoDup (map fst items) -> length rows = length d).
Proof.
  intros Hsort Hd Hne.
  destruct (Hsort d) as [Hperm _].
  exists (merge_left (sort_values d) items).
  split; [apply predict_top_n_item_run; assumption|].
  split; [|split].
  - intros c Hc. apply merge_left_keeps.
    apply (Permutation_in c (Permutation_sym Hperm)). exact Hc.
  - intros c a Hin. apply merge_left_in in Hin. destruct Hin as [Hc Ha].
    split; [apply (Permutation_in c Hperm); exact Hc | exact Ha].
  - intros Hnd. rewrite merge_left_length by exact Hnd.
    apply Permutation_length. exact Hperm.
Qed.

Lemma predict_top_n_item_keeps_candidates_witness :
  exists self,
    init last_row_split raw_table 2 false = Ok self /\
    exists rows,
      predict_top_n_item item_code_scorer sorting_argpartition
        insertion_sort_values titles self 1 2 = Ok rows /\
      (forall c, In c [(2%nat, Fin 2); (0%nat, NInf)] ->
         exists a, In (c, a) rows) /\
      (forall c a, In (c, a) rows ->
         In c [(2%nat, Fin 2); (0%nat, NInf)] /\
         match a with
         | None => matches titles (fst c) = []
         | Some x => In (Z.of_nat (fst c), x) titles
         end) /\
      (NoDup (map fst titles) ->
       length rows = length [(2%nat, Fin 2); (0%nat, NInf)]).
Proof.
  eexists. split; [vm_compute; reflexivity|].
  apply (predict_top_n_item_keeps_candidates nat item_code_scorer
           sorting_argpartition insertion_sort_values titles _ 1%Z 2%Z).
  - exact insertion_sort_values_sorts.
  - vm_compute. reflexivity.
  - discriminate.
Defined.

(** X15.  The returned table is in descending order of score (nan last):
    the sort puts the candidates in that order and the left join keeps
    it. *)
Theorem predict_top_n_item_sorted
        attrs predict argpartition sort_values
        (items : list (Z * attrs)) self u top_n rows :
  sorts_descending sort_values ->
  predict_top_n_item predict argpartition sort_values items self u top_n
    = Ok rows ->
  StronglySorted (fun r1 r2 => desc_leb (snd (fst r1)) (snd (fst r2)) = true)
                 rows.
Proof.
  intros Hsort H. unfold predict_top_n_item in H.
  apply bind_ok in H. destruct H as (d & _ & H).
  apply bind_ok in H. destruct H as (cs & Hcs & H).
  inversion H; subst; clear H.
  destruct (Hsort cs) as [_ Hsorted].
  exact (merge_left_sorted attrs items _ Hsorted).
Qed.

Lemma predict_top_n_item_sorted_witness :
  StronglySorted (fun r1 r2 => desc_leb (snd (fst r1)) (snd (fst r2)) = true)
    [ ((2%nat, Fin 2), Some 102%nat); ((0%nat, NInf), Some 100%nat) ].
Proof.
  apply (predict_top_n_item_sorted nat item_code_scorer sorting_argpartition
           insertion_sort_values titles
           (mk_recommender
              (get_interaction raw_table) 2 3 2 false
              (mk_coo (2, 3)%Z [1%Z] [1%Z] [4%Z])
              (mk_coo (2, 3)%Z [1; 0]%Z [0; 2]%Z [5; 3]%Z))
           1%Z 2%Z).
  - exact insertion_sort_values_sorts.
  - vm_compute. reflexivity.
Defined.

(** X16.  A [top_n] of 0 makes [predict_top_n_item] raise: the top-N
    mapping is then empty, the candidates frame has no columns, and naming
    its two columns raises ValueError. *)
Theorem predict_top_n_item_zero
        attrs tts predict argpartition sort_values
        (items : list (Z * attrs)) raw ts rs self u p :
  argpartition_spec argpartition ->
  init tts raw ts rs = Ok self ->
  predict_for_userId predict self u = Ok p ->
  Z.of_nat (length p) = n_items self ->
  predict_top_n_unseen predict argpartition self u 0 = Ok [] /\
  predict_top_n_item predict argpartition sort_values items self u 0
    = Raise ValueError.
Proof.
  intros Hspec Hinit Hp Hlen.
  assert (Hpos : (0 < n_items self)%Z).
  { destruct (init_ok _ _ _ _ _ Hinit) as (_ & _ & Hi & _).
    pose proof (column_max_in _ _ Hi) as Hin.
    rewrite get_interaction_items in Hin.
    pose proof (codes_nonneg (map raw_item raw)) as Hnn.
    rewrite Forall_forall in Hnn. specialize (Hnn _ Hin). lia. }
  destruct (predict_top_n_unseen_run _ _ _ _ _ _ _ u 0%Z p
              Hspec Hinit Hp Hlen ltac:(lia))
    as (p' & part & _ & _ & _ & Hrun).
  unfold mapping_size in Hrun. simpl in Hrun.
  split; [exact Hrun|].
  unfold predict_top_n_item. rewrite Hrun. reflexivity.
Qed.

Lemma predict_top_n_item_zero_witness :
  exists self,
    init last_row_split raw_table 2 false = Ok self /\
    predict_top_n_unseen item_code_scorer sorting_argpartition self 1 0
      = Ok [] /\
    predict_top_n_item item_code_scorer sorting_argpartition
      insertion_sort_values titles self 1 0 = Raise ValueError.
Proof.
  eexists. split; [vm_compute; reflexivity|].
  apply (predict_top_n_item_zero nat last_row_split item_code_scorer
           sorting_argpartition insertion_sort_values titles
           raw_table 2 false _ 1%Z [Fin 0; Fin 1; Fin 2]).
  - exact sorting_argpartition_spec.
  - vm_compute. reflexivity.
  - vm_compute. reflexivity.
  - vm_compute. reflexivity.
Defined.

End RankedItems.
